(** * ArchiDeathLink: the relay-and-dispatch engine of [death.py]

    A shallow embedding of the queue helpers, the relay bridge, the send
    path, the dispatcher and the trigger endpoints of the control surface,
    with the properties the specification states about them and further
    properties read off the code.

    Conventions of the embedding.
    - A Python [str] is a [string]; its characters are code points below 256.
    - A Python [int] is a [Z]; a [dict] with string or scalar keys is a
      [gmap]; a JSON object keeps its items in an association list.
    - Module-level globals, the connections and the files the engine reads
      back are the fields of one [world] record; every function is a state transformer
      that may raise, written in a small state-and-exception monad.
    - Anything the interpreter or the outside supplies (the result of
      [json.loads], [uuid.uuid4], the clocks, [random.randint]) is an input.
    - Console output and the [stats.txt] snapshot are write-only and are left
      out; JSON numbers with a fraction or an exponent are not represented;
      reading and writing the files never fails. *)

From Stdlib Require Import ZArith QArith Lia Ascii.
From stdpp Require Import base gmap strings list pretty.

Open Scope Z_scope.

(** ** Python text *)

Module Text.

Definition LF : ascii := Ascii.ascii_of_nat 10.
Definition CR : ascii := Ascii.ascii_of_nat 13.

(** ["\n"], the separator of the queue file. *)
Definition nl : string := String LF EmptyString.

Definition is_lf (c : ascii) : bool := bool_decide (c = LF).
Definition is_cr (c : ascii) : bool := bool_decide (c = CR).

(** [str.isspace] on one character, for code points below 256:
    TAB, LF, VT, FF, CR, FS, GS, RS, US, SPACE, NEL and NBSP. *)
Definition isspace (c : ascii) : bool :=
  let n := Ascii.N_of_ascii c in
  (((9 <=? n) && (n <=? 13)) || ((28 <=? n) && (n <=? 32))
   || (n =? 133) || (n =? 160))%N.

(** [s.lstrip()] *)
Fixpoint lstrip (s : string) : string :=
  match s with
  | EmptyString => EmptyString
  | String c rest => if isspace c then lstrip rest else s
  end.

(** [s.rstrip()] *)
Fixpoint rstrip (s : string) : string :=
  match s with
  | EmptyString => EmptyString
  | String c rest =>
      match rstrip rest with
      | EmptyString => if isspace c then EmptyString else String c EmptyString
      | String d r => String c (String d r)
      end
  end.

(** [s.strip()] *)
Definition strip (s : string) : string := rstrip (lstrip s).

(** Truth value of a [str]: the empty string is false. *)
Definition truthy (s : string) : bool :=
  match s with EmptyString => false | String _ _ => true end.

(** Text-mode reading translates ["\r\n"] and a lone ["\r"] to ["\n"]
    (universal newlines, the default of [open(path, "r")]).  Text-mode
    writing is taken as it is on POSIX; where it turns each ["\n"] into
    ["\r\n"], reading turns it back, and a ["\r"] written before it only
    adds a blank line, which the queue helpers skip. *)
Fixpoint universal_newlines (s : string) : string :=
  match s with
  | EmptyString => EmptyString
  | String c rest =>
      if is_cr c then
        match rest with
        | String d rest' =>
            if is_lf d then String LF (universal_newlines rest')
            else String LF (universal_newlines rest)
        | EmptyString => String LF EmptyString
        end
      else String c (universal_newlines rest)
  end.

(** [for line in f]: the lines of a text, each with its terminating
    ["\n"] when it has one. *)
Fixpoint iter_lines (s : string) : list string :=
  match s with
  | EmptyString => []
  | String c rest =>
      if is_lf c then String c EmptyString :: iter_lines rest
      else match iter_lines rest with
           | [] => [String c EmptyString]
           | l :: ls => String c l :: ls
           end
  end.

(** [sep.join(parts)] *)
Fixpoint join (sep : string) (parts : list string) : string :=
  match parts with
  | [] => EmptyString
  | [x] => x
  | x :: rest => x +:+ sep +:+ join sep rest
  end.

(** [needle in s] for two strings: substring test. *)
Fixpoint contains (needle s : string) : bool :=
  String.prefix needle s
  || match s with
     | EmptyString => false
     | String _ rest => contains needle rest
     end.

(** [[line.strip() for line in f if line.strip()]] on the text of a file
    opened in text mode. *)
Definition stripped_lines (text : string) : list string :=
  map strip (filter (fun line => truthy (strip line) = true)
                    (iter_lines (universal_newlines text))).

(** [all(P(c) for c in s)] *)
Fixpoint string_forall (P : ascii -> bool) (s : string) : bool :=
  match s with
  | EmptyString => true
  | String c rest => P c && string_forall P rest
  end.

Definition no_lf (s : string) : bool := string_forall (fun c => negb (is_lf c)) s.
Definition no_cr (s : string) : bool := string_forall (fun c => negb (is_cr c)) s.

(** No line break of text mode: neither LF nor CR occurs in [s]. *)
Definition no_linebreak (s : string) : bool := no_lf s && no_cr s.

(** A name the queue file gives back as it was written: not empty, equal to
    its own [strip()], and free of line breaks. *)
Definition queue_safe (name : string) : bool :=
  truthy name && bool_decide (strip name = name) && no_linebreak name.

End Text.

Import Text.

(** ** Values *)

(** What [json.loads] builds: [None], [bool], [int], [str], [list], [dict]. *)
#[warnings="-register-all"]
Inductive json :=
| JNull
| JBool (b : bool)
| JInt (z : Z)
| JStr (s : string)
| JArr (items : list json)
| JObj (items : list (string * json)).

(** [d.get(key)] on the items of a JSON object; [None] when absent. *)
Fixpoint dict_get (key : string) (items : list (string * json)) : option json :=
  match items with
  | [] => None
  | (k, v) :: rest => if bool_decide (k = key) then Some v else dict_get key rest
  end.

(** [v == s] for a looked-up value [v] and a string [s]. *)
Definition py_eq_str (v : option json) (s : string) : bool :=
  match v with
  | Some (JStr t) => bool_decide (t = s)
  | _ => false
  end.

(** Keys of [player_death_stats].  Python hashes and compares [True] as [1]
    and [False] as [0], so booleans and integers share keys. *)
Inductive pykey :=
| KNone
| KInt (z : Z)
| KStr (s : string).

#[global] Instance pykey_eq_dec : EqDecision pykey.
Proof. solve_decision. Defined.

Definition pykey_encode (k : pykey) : unit + Z + string :=
  match k with
  | KNone => inl (inl tt)
  | KInt z => inl (inr z)
  | KStr s => inr s
  end.

Definition pykey_decode (x : unit + Z + string) : pykey :=
  match x with
  | inl (inl _) => KNone
  | inl (inr z) => KInt z
  | inr s => KStr s
  end.

#[global] Instance pykey_countable : Countable pykey.
Proof.
  apply (inj_countable' pykey_encode pykey_decode).
  intros []; reflexivity.
Defined.

(** The key a JSON value is stored under; lists and dicts are unhashable. *)
Definition hash_key (v : json) : option pykey :=
  match v with
  | JNull => Some KNone
  | JBool b => Some (KInt (if b then 1 else 0))
  | JInt z => Some (KInt z)
  | JStr s => Some (KStr s)
  | JArr _ | JObj _ => None
  end.

(** What a call hands back to its caller. *)
Inductive pyvalue :=
| PyNone
| PyBool (b : bool)
| PyInt (z : Z)
| PyStr (s : string).

(** ** The world: globals, connections and files *)

(** The body of the outbound bounce, [deathlink_payload] before [json.dumps]. *)
Record deathlink_data := {
  dl_time : Q;
  dl_source : string;
  dl_cause : string;
  dl_origin : string;
  dl_nonce : string
}.

Record deathlink_payload := {
  dl_cmd : string;
  dl_tags : list string;
  dl_data : deathlink_data
}.

(** What travels over a WebSocket: a message passed on as received, or the
    serialisation [json.dumps(payloads)] of an outbound envelope. *)
Inductive frame :=
| Relayed (message : string)
| Dumps (payloads : list deathlink_payload).

(** A connection: whether [send] still works, and what was sent on it. *)
Record websocket := {
  ws_open : bool;
  ws_sent : list frame
}.

(** An entry of [recent_outbound]: [(nonce, source, ts)]. *)
Definition outbound_record : Type := string * string * Q.

Definition record_nonce (r : outbound_record) : string := fst (fst r).

(** The two options of [config] the dispatcher reads; [None]: key absent. *)
Record dispatch_config := {
  min_dispatch_seconds : option Z;
  max_dispatch_seconds : option Z
}.

Record world := {
  deathlink_stats : gmap string Z;
  player_death_stats : gmap pykey Z;
  recent_outbound : list outbound_record;
  client_connected : bool;
  archipelago_ws : option websocket;
  client_ws : websocket;
  queue_file : option string;
  trigger_file : option string;
  banner_tasks : nat;
  config : dispatch_config
}.

Definition set_deathlink_stats (v : gmap string Z) (w : world) : world :=
  {| deathlink_stats := v; player_death_stats := player_death_stats w;
     recent_outbound := recent_outbound w; client_connected := client_connected w;
     archipelago_ws := archipelago_ws w; client_ws := client_ws w;
     queue_file := queue_file w; trigger_file := trigger_file w;
     banner_tasks := banner_tasks w; config := config w |}.

Definition set_player_death_stats (v : gmap pykey Z) (w : world) : world :=
  {| deathlink_stats := deathlink_stats w; player_death_stats := v;
     recent_outbound := recent_outbound w; client_connected := client_connected w;
     archipelago_ws := archipelago_ws w; client_ws := client_ws w;
     queue_file := queue_file w; trigger_file := trigger_file w;
     banner_tasks := banner_tasks w; config := config w |}.

Definition set_recent_outbound (v : list outbound_record) (w : world) : world :=
  {| deathlink_stats := deathlink_stats w; player_death_stats := player_death_stats w;
     recent_outbound := v; client_connected := client_connected w;
     archipelago_ws := archipelago_ws w; client_ws := client_ws w;
     queue_file := queue_file w; trigger_file := trigger_file w;
     banner_tasks := banner_tasks w; config := config w |}.

Definition set_client_connected (v : bool) (w : world) : world :=
  {| deathlink_stats := deathlink_stats w; player_death_stats := player_death_stats w;
     recent_outbound := recent_outbound w; client_connected := v;
     archipelago_ws := archipelago_ws w; client_ws := client_ws w;
     queue_file := queue_file w; trigger_file := trigger_file w;
     banner_tasks := banner_tasks w; config := config w |}.

Definition set_archipelago_ws (v : option websocket) (w : world) : world :=
  {| deathlink_stats := deathlink_stats w; player_death_stats := player_death_stats w;
     recent_outbound := recent_outbound w; client_connected := client_connected w;
     archipelago_ws := v; client_ws := client_ws w;
     queue_file := queue_file w; trigger_file := trigger_file w;
     banner_tasks := banner_tasks w; config := config w |}.

Definition set_client_ws (v : websocket) (w : world) : world :=
  {| deathlink_stats := deathlink_stats w; player_death_stats := player_death_stats w;
     recent_outbound := recent_outbound w; client_connected := client_connected w;
     archipelago_ws := archipelago_ws w; client_ws := v;
     queue_file := queue_file w; trigger_file := trigger_file w;
     banner_tasks := banner_tasks w; config := config w |}.

Definition set_queue_file (v : option string) (w : world) : world :=
  {| deathlink_stats := deathlink_stats w; player_death_stats := player_death_stats w;
     recent_outbound := recent_outbound w; client_connected := client_connected w;
     archipelago_ws := archipelago_ws w; client_ws := client_ws w;
     queue_file := v; trigger_file := trigger_file w;
     banner_tasks := banner_tasks w; config := config w |}.

Definition set_trigger_file (v : option string) (w : world) : world :=
  {| deathlink_stats := deathlink_stats w; player_death_stats := player_death_stats w;
     recent_outbound := recent_outbound w; client_connected := client_connected w;
     archipelago_ws := archipelago_ws w; client_ws := client_ws w;
     queue_file := queue_file w; trigger_file := v;
     banner_tasks := banner_tasks w; config := config w |}.

Definition set_banner_tasks (v : nat) (w : world) : world :=
  {| deathlink_stats := deathlink_stats w; player_death_stats := player_death_stats w;
     recent_outbound := recent_outbound w; client_connected := client_connected w;
     archipelago_ws := archipelago_ws w; client_ws := client_ws w;
     queue_file := queue_file w; trigger_file := trigger_file w;
     banner_tasks := v; config := config w |}.

(** The state when the module has been loaded: empty accumulators, no
    session, the trigger file created empty. *)
Definition boot (cfg : dispatch_config) (queue : option string) : world :=
  {| deathlink_stats := ∅; player_death_stats := ∅;
     recent_outbound := []; client_connected := false;
     archipelago_ws := None;
     client_ws := {| ws_open := false; ws_sent := [] |};
     queue_file := queue; trigger_file := Some EmptyString;
     banner_tasks := 0%nat; config := cfg |}.

(** ** State and exceptions *)

Inductive exn :=
| TypeError
| ValueError
| AttributeError
| ConnectionClosed.

Inductive result (A : Type) :=
| Ok (a : A)
| Raise (e : exn).

Arguments Ok {A} a.
Arguments Raise {A} e.

Definition M (A : Type) : Type := world -> result A * world.

Definition ret {A} (a : A) : M A := fun w => (Ok a, w).

Definition bind {A B} (m : M A) (k : A -> M B) : M B :=
  fun w =>
    match m w with
    | (Ok a, w') => k a w'
    | (Raise e, w') => (Raise e, w')
    end.

Definition raise {A} (e : exn) : M A := fun w => (Raise e, w).

Definition get : M world := fun w => (Ok w, w).

Definition modify (f : world -> world) : M unit := fun w => (Ok tt, f w).

(** [try: body / except Exception: handler]: what the body changed before
    it raised stays changed. *)
Definition try_except {A} (body : M A) (handler : exn -> M A) : M A :=
  fun w =>
    match body w with
    | (Ok a, w') => (Ok a, w')
    | (Raise e, w') => handler e w'
    end.

Notation "x <- m ;; k" := (bind m (fun x => k))
  (at level 100, m at next level, k at level 200, only parsing).
Notation "m ;; k" := (bind m (fun _ => k))
  (at level 100, k at level 200, only parsing).

(** [for x in xs: body(x)] *)
Fixpoint for_each {A} (body : A -> M unit) (xs : list A) : M unit :=
  match xs with
  | [] => ret tt
  | x :: rest => body x ;; for_each body rest
  end.

(** ** Queue helpers *)

(** The list both helpers read first; a missing file is an empty queue. *)
Definition read_queue (w : world) : list string :=
  match queue_file w with
  | Some text => stripped_lines text
  | None => []
  end.

(** [f.write("\n".join(queue))] on the queue file opened with ["w"]. *)
Definition write_queue (queue : list string) : M unit :=
  modify (set_queue_file (Some (join nl queue))).

(** [enqueue_deathlinks(name, count)] *)
Definition enqueue_deathlinks (name : string) (count : Z) : M Z :=
  w <- get ;;
  let queue := read_queue w ++ replicate (Z.to_nat (Z.max 0 count)) name in
  write_queue queue ;;
  ret (Z.of_nat (length queue)).

(** [dequeue_deathlink()]: the pair [(name, len(queue))], or [(None, 0)]
    without touching the file. *)
Definition dequeue_deathlink : M (option string * Z) :=
  w <- get ;;
  match read_queue w with
  | [] => ret (None, 0)
  | name :: queue =>
      write_queue queue ;;
      ret (Some name, Z.of_nat (length queue))
  end.

(** [n] calls of [dequeue_deathlink] in a row, with what each returned. *)
Fixpoint dequeue_many (n : nat) : M (list (option string * Z)) :=
  match n with
  | O => ret []
  | S n' =>
      r <- dequeue_deathlink ;;
      rs <- dequeue_many n' ;;
      ret (r :: rs)
  end.

(** ** Relay bridge: the server-to-client direction *)

(** [await ws.send(frame)] on the local client's connection. *)
Definition client_send (f : frame) : M unit :=
  w <- get ;;
  let ws := client_ws w in
  if ws_open ws
  then modify (set_client_ws {| ws_open := true; ws_sent := ws_sent ws ++ [f] |})
  else raise ConnectionClosed.

(** [x in ("Bounced", "Bounce")] *)
Definition cmd_is_bounce (cmd : option json) : bool :=
  py_eq_str cmd "Bounced" || py_eq_str cmd "Bounce".

(** ["DeathLink" in item.get("tags", [])]: membership in a list, substring of
    a string, key of a dict; anything else is not iterable. *)
Definition deathlink_in_tags (tags : option json) : M bool :=
  match tags with
  | None => ret false
  | Some (JArr l) => ret (existsb (fun v => py_eq_str (Some v) "DeathLink") l)
  | Some (JStr s) => ret (contains "DeathLink" s)
  | Some (JObj kv) => ret (bool_decide (is_Some (dict_get "DeathLink" kv)))
  | Some _ => raise TypeError
  end.

(** [any(nonce == n for (n, _, _) in recent_outbound)] *)
Definition is_our_nonce (nonce : option json) (registry : list outbound_record) : bool :=
  existsb (fun r => py_eq_str nonce (record_nonce r)) registry.

(** [player_death_stats[source] = player_death_stats.get(source, 0) + 1] *)
Definition count_player_death (source : json) : M unit :=
  match hash_key source with
  | Some k =>
      modify (fun w =>
        set_player_death_stats
          (<[k := default 0 (player_death_stats w !! k) + 1]> (player_death_stats w)) w)
  | None => raise TypeError
  end.

(** [with open(TRIGGER_FILE, "w") as f: f.write(source)]: opening empties
    the file; writing anything but a [str] raises.  A [str] of this model,
    code points below 256, is always written; a lone surrogate, which these
    strings cannot hold, would make the UTF-8 encoder raise instead. *)
Definition write_trigger (source : json) : M unit :=
  match source with
  | JStr s => modify (set_trigger_file (Some s))
  | _ => modify (set_trigger_file (Some EmptyString)) ;; raise TypeError
  end.

(** [asyncio.create_task(_clear_banner_soon())] *)
Definition schedule_clear_banner : M unit :=
  modify (fun w => set_banner_tasks (S (banner_tasks w)) w).

(** [_clear_banner_soon()] once its four seconds have passed. *)
Definition clear_banner_soon : M unit :=
  modify (fun w => set_banner_tasks (Nat.pred (banner_tasks w))
                     (set_trigger_file (Some EmptyString) w)).

(** The guard of the loop body: a dict with a bounce command, the DeathLink
    tag and a dict as data; yields that data. *)
Definition deathlink_record (item : json) : M (option (list (string * json))) :=
  match item with
  | JObj kv =>
      if cmd_is_bounce (dict_get "cmd" kv) then
        tagged <- deathlink_in_tags (dict_get "tags" kv) ;;
        if (tagged : bool) then
          match dict_get "data" kv with
          | Some (JObj dl) => ret (Some dl)
          | _ => ret None
          end
        else ret None
      else ret None
  | _ => ret None
  end.

(** [source = dl.get("source", "UNKNOWN")] *)
Definition source_of (dl : list (string * json)) : json :=
  default (JStr "UNKNOWN") (dict_get "source" dl).

(** [is_our_origin or is_our_nonce] *)
Definition is_echo (dl : list (string * json)) (registry : list outbound_record) : bool :=
  py_eq_str (dict_get "origin" dl) "LOCAL_BOT"
  || is_our_nonce (dict_get "nonce" dl) registry.

(** What the loop body does under its guard, with [dl = item["data"]]. *)
Definition count_inbound (dl : list (string * json)) : M unit :=
  w <- get ;;
  if is_echo dl (recent_outbound w) then ret tt
  else
    count_player_death (source_of dl) ;;
    write_trigger (source_of dl) ;;
    schedule_clear_banner.

(** The body of [for item in data]. *)
Definition classify_item (item : json) : M unit :=
  guard <- deathlink_record item ;;
  match guard with
  | Some dl => count_inbound dl
  | None => ret tt
  end.

Section Relay.

(** [json.loads]; [None] when it raises. *)
Variable loads : string -> option json.

Definition json_loads (message : string) : M json :=
  match loads message with
  | Some data => ret data
  | None => raise ValueError
  end.

(** The [try] block of the loop body. *)
Definition inspect (message : string) : M unit :=
  data <- json_loads message ;;
  match data with
  | JArr items => for_each classify_item items
  | _ => ret tt
  end.

(** One turn of [async for message in server_ws]. *)
Definition server_to_client_turn (message : string) : M unit :=
  client_send (Relayed message) ;;
  try_except (inspect message) (fun _ => ret tt).

(** [server_to_client()] over the messages the server delivers. *)
Definition server_to_client (messages : list string) : M unit :=
  for_each server_to_client_turn messages.

End Relay.

(** One turn of [async for message in client_ws] in [client_to_server]:
    [server_ws], the connection [archipelago_ws] names, gets the message. *)
Definition client_to_server_turn (message : string) : M unit :=
  w <- get ;;
  match archipelago_ws w with
  | Some ws =>
      if ws_open ws
      then modify (set_archipelago_ws
                     (Some {| ws_open := true;
                              ws_sent := ws_sent ws ++ [Relayed message] |}))
      else raise ConnectionClosed
  | None => raise ConnectionClosed
  end.

(** What [relay_messages] does to the globals once the upstream connection
    is made, and in its [finally]. *)
Definition relay_connect (client server : websocket) : M unit :=
  modify (set_client_ws client) ;;
  modify (set_archipelago_ws (Some server)) ;;
  modify (set_client_connected true).

Definition relay_teardown : M unit :=
  modify (set_client_connected false) ;;
  modify (set_archipelago_ws None).

(** ** Send path *)

(** What one call draws from outside: the uuid, the two clock readings and
    the outcome of [random.randint]. *)
Record environment := {
  env_uuid4 : string;
  env_now : Q;
  env_time : Q;
  env_randint : Z -> Z -> Z
}.

(** [deque(maxlen=100)] *)
Definition maxlen : nat := 100.

(** [d.append(x)]: append, then drop the leftmost entry if over [maxlen]. *)
Definition deque_append {A} (x : A) (d : list A) : list A :=
  let d' := d ++ [x] in
  if (maxlen <? length d')%nat then drop 1 d' else d'.

(** [await archipelago_ws.send(frame)] *)
Definition archipelago_send (f : frame) : M unit :=
  w <- get ;;
  match archipelago_ws w with
  | Some ws =>
      if ws_open ws
      then modify (set_archipelago_ws
                     (Some {| ws_open := true; ws_sent := ws_sent ws ++ [f] |}))
      else raise ConnectionClosed
  | None => raise AttributeError
  end.

Definition make_payload (env : environment) (source_name : string) : deathlink_payload :=
  {| dl_cmd := "Bounce";
     dl_tags := ["DeathLink"];
     dl_data := {| dl_time := env_now env;
                   dl_source := source_name;
                   dl_cause := "Killed by " +:+ source_name;
                   dl_origin := "LOCAL_BOT";
                   dl_nonce := env_uuid4 env |} |}.

(** [not archipelago_ws or not client_connected] *)
Definition session_inactive (w : world) : bool :=
  negb (bool_decide (is_Some (archipelago_ws w))) || negb (client_connected w).

(** [send_deathlink(source_name)], followed through its two suspension
    points, the send and the four-second sleep before the banner is cleared;
    what other tasks do in between is a step of theirs.  Both the early
    [return] and the end of the body hand back [None]. *)
Definition send_deathlink (env : environment) (source_name : string) : M pyvalue :=
  w <- get ;;
  if session_inactive w then ret PyNone
  else
    modify (set_deathlink_stats
              (<[source_name := default 0 (deathlink_stats w !! source_name) + 1]>
                 (deathlink_stats w))) ;;
    try_except
      (archipelago_send (Dumps [make_payload env source_name]) ;;
       modify (fun w' => set_recent_outbound
                 (deque_append (env_uuid4 env, source_name, env_time env)
                               (recent_outbound w')) w') ;;
       modify (set_trigger_file (Some source_name)) ;;
       modify (set_trigger_file (Some EmptyString)))
      (fun _ => ret tt) ;;
    ret PyNone.

(** ** Dispatcher *)

(** [random.randint(a, b)] *)
Definition randint (env : environment) (a b : Z) : M Z :=
  if b <? a then raise ValueError else ret (env_randint env a b).

(** The draw of a well-behaved generator lies in the range asked for. *)
Definition randint_in_range (env : environment) : Prop :=
  forall a b, a <= b -> a <= env_randint env a b <= b.

(** [int(config.get("min_dispatch_seconds", 240))] and its companion. *)
Definition min_seconds (w : world) : Z := default 240 (min_dispatch_seconds (config w)).
Definition max_seconds (w : world) : Z := default 480 (max_dispatch_seconds (config w)).

(** One turn of [while True] in [staged_deathlink_dispatcher]; the result
    is the number of seconds handed to [asyncio.sleep]. *)
Definition dispatcher_turn (env : environment) : M Z :=
  popped <- dequeue_deathlink ;;
  match fst popped with
  | Some name =>
      if truthy name then
        w <- get ;;
        if negb (client_connected w) then ret 5
        else
          send_deathlink env name ;;
          let min_s := min_seconds w in
          let max_s := max_seconds w in
          let max_s := if max_s <? min_s then min_s else max_s in
          randint env min_s max_s
      else ret 5
  | None => ret 5
  end.

(** [staged_deathlink_dispatcher()] for one turn per environment, with the
    pauses it asked for; the loop itself has no end. *)
Fixpoint staged_deathlink_dispatcher (envs : list environment) : M (list Z) :=
  match envs with
  | [] => ret []
  | env :: rest =>
      pause <- dispatcher_turn env ;;
      pauses <- staged_deathlink_dispatcher rest ;;
      ret (pause :: pauses)
  end.

(** ** Runs of the engine *)

(** The steps the tasks of the event loop take. *)
Inductive action :=
| Connect (client server : websocket)
| Teardown
| Inbound (message : string)
| Outbound (message : string)
| Send (env : environment) (source_name : string)
| Enqueue (name : string) (count : Z)
| Dispatch (env : environment)
| ClearBanner.

Section Run.

Variable loads : string -> option json.

(** The world after one step; an exception that leaves a task is dropped
    with the task. *)
Definition step (a : action) (w : world) : world :=
  match a with
  | Connect client server => snd (relay_connect client server w)
  | Teardown => snd (relay_teardown w)
  | Inbound message => snd (server_to_client_turn loads message w)
  | Outbound message => snd (client_to_server_turn message w)
  | Send env source_name => snd (send_deathlink env source_name w)
  | Enqueue name count => snd (enqueue_deathlinks name count w)
  | Dispatch env => snd (dispatcher_turn env w)
  | ClearBanner => snd (clear_banner_soon w)
  end.

Definition run (actions : list action) (w : world) : world :=
  foldl (fun w a => step a w) w actions.

End Run.

(** ** Notions the properties are stated with *)

(** [deathlink_stats[name]] after the increment. *)
Definition incremented (name : string) (stats : gmap string Z) : gmap string Z :=
  <[name := default 0 (stats !! name) + 1]> stats.

(** [config] with [max_dispatch_seconds] set. *)
Definition with_max (max_s : Z) (w : world) : world :=
  {| deathlink_stats := deathlink_stats w; player_death_stats := player_death_stats w;
     recent_outbound := recent_outbound w; client_connected := client_connected w;
     archipelago_ws := archipelago_ws w; client_ws := client_ws w;
     queue_file := queue_file w; trigger_file := trigger_file w;
     banner_tasks := banner_tasks w;
     config := {| min_dispatch_seconds := min_dispatch_seconds (config w);
                  max_dispatch_seconds := Some max_s |} |}.

(** What the inbound classification leaves alone: everything but
    [player_death_stats], the trigger file and the banner tasks. *)
Definition inbound_frame (w w' : world) : Prop :=
  deathlink_stats w' = deathlink_stats w
  /\ recent_outbound w' = recent_outbound w
  /\ client_connected w' = client_connected w
  /\ archipelago_ws w' = archipelago_ws w
  /\ client_ws w' = client_ws w
  /\ queue_file w' = queue_file w
  /\ config w' = config w.

(** The world once [message] has gone out to the local client. *)
Definition forwarded (message : string) (w : world) : world :=
  set_client_ws {| ws_open := true;
                   ws_sent := ws_sent (client_ws w) ++ [Relayed message] |} w.

(** ** Properties in the words of the specification *)

(** The names a run of dequeues returned. *)
Definition dequeued_names (r : result (list (option string * Z))) : result (list (option string)) :=
  match r with
  | Ok rs => Ok (map fst rs)
  | Raise e => Raise e
  end.

(** [Enqueue(name, n)] followed by dequeues, first-in first-out: [n] calls
    return the head of the old entries followed by the copies and leave as
    many entries as there were before, and draining returns the old entries
    and then the [n] copies. *)
Definition fifo_round_trip (w : world) (name : string) (n : Z) : Prop :=
  let before := read_queue w in
  let copies := replicate (Z.to_nat n) name in
  let w1 := snd (enqueue_deathlinks name n w) in
  let after_n := dequeue_many (Z.to_nat n) w1 in
  let drained := dequeue_many (length before + Z.to_nat n) w1 in
  dequeued_names (fst after_n) = Ok (map Some (take (Z.to_nat n) (before ++ copies)))
  /\ length (read_queue (snd after_n)) = length before
  /\ dequeued_names (fst drained) = Ok (map Some (before ++ copies))
  /\ read_queue (snd drained) = [].

(** The return value of a call made without a session differs from that of
    every call made within one. *)
Definition failure_is_distinguishable (env : environment) (name : string) (w : world) : Prop :=
  forall w_ok, session_inactive w_ok = false ->
    fst (send_deathlink env name w) <> fst (send_deathlink env name w_ok).

(** The registry after a send is the registry before it with the record of
    this send appended. *)
Definition send_appends_record (env : environment) (name : string) (w : world) : Prop :=
  recent_outbound (snd (send_deathlink env name w))
  = deque_append (env_uuid4 env, name, env_time env) (recent_outbound w).

(** The number [enqueue_deathlinks] returns is the length of the queue it
    leaves in the file. *)
Definition returns_persisted_length (name : string) (count : Z) (w : world) : Prop :=
  fst (enqueue_deathlinks name count w)
  = Ok (Z.of_nat (length (read_queue (snd (enqueue_deathlinks name count w))))).

(** A message whose inspection raises is passed over without a trace: the
    turn ends normally and leaves [player_death_stats] and the trigger file
    as they were. *)
Definition swallowed_error_changes_nothing
    (loads : string -> option json) (message : string) (w : world) : Prop :=
  forall e, fst (inspect loads message (forwarded message w)) = Raise e ->
    let w' := snd (server_to_client_turn loads message w) in
    fst (server_to_client_turn loads message w) = Ok tt
    /\ player_death_stats w' = player_death_stats w
    /\ trigger_file w' = trigger_file w.

(** The counting of inbound deaths, for one object of an envelope: an echo
    leaves [player_death_stats] alone, anything else adds one to the count
    of its source. *)
Definition object_counted (item : json) (w : world) : Prop :=
  forall dl, fst (deathlink_record item w) = Ok (Some dl) ->
    let stats := player_death_stats w in
    let stats' := player_death_stats (snd (classify_item item w)) in
    if is_echo dl (recent_outbound w) then stats' = stats
    else exists k, hash_key (source_of dl) = Some k
                   /\ stats' = <[k := default 0 (stats !! k) + 1]> stats.

(** ** Sample values *)

Definition sample_config : dispatch_config :=
  {| min_dispatch_seconds := Some 480; max_dispatch_seconds := Some 240 |}.

Definition sample_env : environment :=
  {| env_uuid4 := "n-1"; env_now := 0%Q; env_time := 0%Q;
     env_randint := fun a _ => a |}.

Definition open_socket : websocket := {| ws_open := true; ws_sent := [] |}.
Definition closed_socket : websocket := {| ws_open := false; ws_sent := [] |}.

(** A session in progress, with the given upstream connection. *)
Definition in_session (server : websocket) (queue : option string) : world :=
  snd (relay_connect open_socket server (boot sample_config queue)).

(** The queue file holding ["A"], ["A"], ["B"]. *)
Definition sample_queue : string := "A" +:+ nl +:+ "A" +:+ nl +:+ "B".

(** A bounced DeathLink whose [data] is the given dict. *)
Definition bounced (dl : list (string * json)) : json :=
  JObj [("cmd", JStr "Bounced"); ("tags", JArr [JStr "DeathLink"]); ("data", JObj dl)].

(** The [data] of a DeathLink from another player, and of one whose
    [source] is a JSON array. *)
Definition from_player : list (string * json) :=
  [("time", JInt 0); ("source", JStr "Player2"); ("cause", JStr "fell")].

Definition unhashable_source : list (string * json) :=
  [("source", JArr [JStr "Player2"])].

(** The [data] of a DeathLink whose [source] is [null]. *)
Definition null_source : list (string * json) :=
  [("source", JNull)].

(** The environment of the [i]-th send of a burst: a nonce of its own. *)
Definition burst_env (i : nat) : environment :=
  {| env_uuid4 := String (Ascii.ascii_of_nat i) EmptyString;
     env_now := 0%Q; env_time := 0%Q; env_randint := fun a _ => a |}.

(** [n] sends for ["A"], one after the other. *)
Definition burst (n : nat) : list action :=
  map (fun i => Send (burst_env i) "A") (seq 0 n).

(** The record the [i]-th send of a burst leaves in the registry. *)
Definition burst_record (i : nat) : outbound_record :=
  (env_uuid4 (burst_env i), "A", env_time (burst_env i)).

(** A session whose registry is full. *)
Definition full_registry : world :=
  run (fun _ => None) (burst maxlen) (in_session open_socket None).

(** ** A relay session as a whole *)

(** Who a message of the session comes from. *)
Inductive direction :=
| FromClient
| FromServer.

Section RelaySession.

Variable loads : string -> option json.

(** One turn of either loop of [asyncio.gather(client_to_server(),
    server_to_client())]. *)
Definition pump (turn : direction * string) : M unit :=
  match turn with
  | (FromClient, message) => client_to_server_turn message
  | (FromServer, message) => server_to_client_turn loads message
  end.

(** [relay_messages(client_ws, path)]: [upstream] is what
    [websockets.connect] gives, [None] when it raises; [traffic] lists the
    turns of the two loops in the order the event loop runs them, and the
    first exception ends the session.  The [except] logs, the [finally]
    resets the globals. *)
Definition relay_messages (client : websocket) (upstream : option websocket)
    (traffic : list (direction * string)) : M unit :=
  try_except
    match upstream with
    | Some server => relay_connect client server ;; for_each pump traffic
    | None => raise ConnectionClosed
    end
    (fun _ => ret tt) ;;
  relay_teardown.

End RelaySession.

(** ** The numbers of the stats page *)

(** [total = sum(deathlink_stats.values())] *)
Definition deaths_this_run (w : world) : Z :=
  map_fold (fun _ count total => total + count) 0 (deathlink_stats w).

(** [queue_length = len(queue)] *)
Definition deaths_in_queue (w : world) : Z := Z.of_nat (length (read_queue w)).

(** ** Control surface *)

(** What a handler reads of a request: the value of the [X-Auth-Key]
    header, if any, and the query string as the pairs it lists. *)
Record request := {
  req_auth_header : option string;
  req_query : list (string * string)
}.

(** [request.query.get(key)]: the first value given for [key]. *)
Fixpoint query_get (key : string) (query : list (string * string)) : option string :=
  match query with
  | [] => None
  | (k, v) :: rest => if bool_decide (k = key) then Some v else query_get key rest
  end.

(** The options of [config] the trigger endpoints read; [None]: key absent. *)
Record trigger_rates := {
  deaths_per_twitch_sub : option Z;
  deaths_per_tiktok_sub : option Z;
  bits_per_death : option Z;
  coins_per_death : option Z
}.

(** [web.Response(text=..., status=...)] *)
Record response := {
  resp_text : string;
  resp_status : Z
}.

(** What can leave a handler instead of a response. *)
Inductive handler_error :=
| HTTPUnauthorized
| IntValueError
| ZeroDivisionError
| Escaped (e : exn).

Inductive outcome (A : Type) :=
| Done (a : A)
| Failed (e : handler_error).

Arguments Done {A} a.
Arguments Failed {A} e.

Definition H (A : Type) : Type := world -> outcome A * world.

Definition hret {A} (a : A) : H A := fun w => (Done a, w).

Definition hbind {A B} (m : H A) (k : A -> H B) : H B :=
  fun w =>
    match m w with
    | (Done a, w') => k a w'
    | (Failed e, w') => (Failed e, w')
    end.

Definition hraise {A} (e : handler_error) : H A := fun w => (Failed e, w).

(** A call into the engine from a handler. *)
Definition call {A} (m : M A) : H A :=
  fun w =>
    match m w with
    | (Ok a, w') => (Done a, w')
    | (Raise e, w') => (Failed (Escaped e), w')
    end.

Notation "x <~ m ;; k" := (hbind m (fun x => k))
  (at level 100, m at next level, k at level 200, only parsing).

(** [a // b] *)
Definition floordiv (a b : Z) : H Z :=
  if b =? 0 then hraise ZeroDivisionError else hret (a / b).

Section ControlSurface.

(** [AUTH_KEY]; the empty string disables the check. *)
Variable AUTH_KEY : string.

(** [int(s)] on a [str]; [None] when it raises [ValueError]. *)
Variable int_of_str : string -> option Z.

Variable rates : trigger_rates.

(** [authorized(request)] *)
Definition authorized (r : request) : bool :=
  if negb (truthy AUTH_KEY) then true
  else bool_decide (req_auth_header r = Some AUTH_KEY)
       || bool_decide (query_get "auth_key" (req_query r) = Some AUTH_KEY).

(** [require_auth(request)] *)
Definition require_auth (r : request) : H unit :=
  if negb (authorized r) then hraise HTTPUnauthorized else hret tt.

(** [int(request.query.get(key, default))] with an [int] default. *)
Definition query_int (key : string) (default_value : Z) (r : request) : H Z :=
  match query_get key (req_query r) with
  | Some s =>
      match int_of_str s with
      | Some z => hret z
      | None => hraise IntValueError
      end
  | None => hret default_value
  end.

(** [await send_deathlink(user)] and then, [if n > 1],
    [enqueue_deathlinks(user, n - 1)]: one now, the rest queued. *)
Definition trigger_and_queue (env : environment) (user : string) (n : Z) : H unit :=
  _ <~ call (send_deathlink env user) ;;
  if 1 <? n then _ <~ call (enqueue_deathlinks user (n - 1)) ;; hret tt
  else hret tt.

(** [handle_twitch_sub(request)] *)
Definition handle_twitch_sub (env : environment) (r : request) : H response :=
  _ <~ require_auth r ;;
  let user := default "Twitch" (query_get "user" (req_query r)) in
  qty <~ query_int "qty" 1 r ;;
  let per := default 3 (deaths_per_twitch_sub rates) in
  let total_deaths := qty * per in
  if total_deaths <=? 0
  then hret {| resp_text := "No deaths to process."; resp_status := 200 |}
  else
    _ <~ trigger_and_queue env user total_deaths ;;
    hret {| resp_text := "Triggered 1 & queued " +:+ pretty (Z.max 0 (total_deaths - 1))
                         +:+ " deaths for " +:+ user +:+ " (Twitch subs).";
            resp_status := 200 |}.

(** [handle_tiktok_sub(request)] *)
Definition handle_tiktok_sub (env : environment) (r : request) : H response :=
  _ <~ require_auth r ;;
  let user := default "TikTok" (query_get "user" (req_query r)) in
  qty <~ query_int "qty" 1 r ;;
  let per := default 2 (deaths_per_tiktok_sub rates) in
  let total_deaths := qty * per in
  if total_deaths <=? 0
  then hret {| resp_text := "No deaths to process."; resp_status := 200 |}
  else
    _ <~ trigger_and_queue env user total_deaths ;;
    hret {| resp_text := "Triggered 1 & queued " +:+ pretty (Z.max 0 (total_deaths - 1))
                         +:+ " deaths for " +:+ user +:+ " (TikTok subs).";
            resp_status := 200 |}.

(** [handle_custom(request)] *)
Definition handle_custom (env : environment) (r : request) : H response :=
  _ <~ require_auth r ;;
  let user := default "Custom" (query_get "user" (req_query r)) in
  qty <~ query_int "qty" 1 r ;;
  if qty <=? 0
  then hret {| resp_text := "No deaths to process."; resp_status := 200 |}
  else
    _ <~ trigger_and_queue env user qty ;;
    hret {| resp_text := "Triggered 1 & queued " +:+ pretty (Z.max 0 (qty - 1))
                         +:+ " custom deaths for " +:+ user +:+ ".";
            resp_status := 200 |}.

(** [handle_cheer(request)] *)
Definition handle_cheer (env : environment) (r : request) : H response :=
  _ <~ require_auth r ;;
  let user := default "Cheer" (query_get "user" (req_query r)) in
  bits <~ query_int "qty" 0 r ;;
  let per := default 100 (bits_per_death rates) in
  num_deaths <~ floordiv bits per ;;
  if 0 <? num_deaths then
    _ <~ trigger_and_queue env user num_deaths ;;
    hret {| resp_text := user +:+ " triggered 1 DeathLink and queued "
                         +:+ pretty (num_deaths - 1);
            resp_status := 200 |}
  else hret {| resp_text := "Not enough bits for a DeathLink"; resp_status := 200 |}.

(** [handle_coins(request)] *)
Definition handle_coins (env : environment) (r : request) : H response :=
  _ <~ require_auth r ;;
  let user := default "Coins" (query_get "user" (req_query r)) in
  coins <~ query_int "qty" 0 r ;;
  let per := default 100 (coins_per_death rates) in
  num_deaths <~ floordiv coins per ;;
  if 0 <? num_deaths then
    _ <~ trigger_and_queue env user num_deaths ;;
    hret {| resp_text := user +:+ " triggered 1 DeathLink and queued "
                         +:+ pretty (num_deaths - 1);
            resp_status := 200 |}
  else hret {| resp_text := "Not enough coins for a DeathLink"; resp_status := 200 |}.

(** The five endpoints that trigger deaths. *)
Inductive endpoint :=
| Twitch
| TikTok
| Custom
| Cheer
| Coins.

Definition handle (e : endpoint) : environment -> request -> H response :=
  match e with
  | Twitch => handle_twitch_sub
  | TikTok => handle_tiktok_sub
  | Custom => handle_custom
  | Cheer => handle_cheer
  | Coins => handle_coins
  end.

End ControlSurface.

(** ** More sample values *)

Definition no_rates : trigger_rates :=
  {| deaths_per_twitch_sub := None; deaths_per_tiktok_sub := None;
     bits_per_death := None; coins_per_death := None |}.

(** A reading of decimal numerals good enough for the samples. *)
Definition sample_int (s : string) : option Z :=
  if bool_decide (s = "2") then Some 2
  else if bool_decide (s = "250") then Some 250
  else if bool_decide (s = "0") then Some 0
  else None.

Definition sample_request (query : list (string * string)) : request :=
  {| req_auth_header := None; req_query := query |}.

(** What has been sent upstream so far. *)
Definition upstream_sent (w : world) : list frame :=
  match archipelago_ws w with
  | Some ws => ws_sent ws
  | None => []
  end.

(** What no message from the server can reach: the contributor counts, the
    registry, the queue file, the session globals and the configuration. *)
Definition outbound_state_kept (w w' : world) : Prop :=
  deathlink_stats w' = deathlink_stats w
  /\ recent_outbound w' = recent_outbound w
  /\ client_connected w' = client_connected w
  /\ archipelago_ws w' = archipelago_ws w
  /\ queue_file w' = queue_file w
  /\ config w' = config w.

(** Every count a map holds is at least 1. *)
Definition counts_positive `{Countable K} (stats : gmap K Z) : Prop :=
  forall k v, stats !! k = Some v -> 1 <= v.

(** No count of [stats] is lower, or gone, in [stats']. *)
Definition counts_grow `{Countable K} (stats stats' : gmap K Z) : Prop :=
  forall k, default 0 (stats !! k) <= default 0 (stats' !! k).

(** A bounce whose [tags] field is the number 5. *)
Definition bad_tags : json :=
  JObj [("cmd", JStr "Bounced"); ("tags", JInt 5)].

(** How a map of counts may differ after some steps: no count lower, and
    all counts at least 1 if they were. *)
Definition grown `{Countable K} (stats stats' : gmap K Z) : Prop :=
  counts_grow stats stats' /\ (counts_positive stats -> counts_positive stats').

(** What a relay session leaves as it found it: the contributor counts, the
    registry, the queue file and the configuration. *)
Definition relay_kept (w w' : world) : Prop :=
  deathlink_stats w' = deathlink_stats w
  /\ recent_outbound w' = recent_outbound w
  /\ queue_file w' = queue_file w
  /\ config w' = config w.

(** ** Reading a trigger request *)

(** The name an endpoint uses when the request gives none. *)
Definition default_user (e : endpoint) : string :=
  match e with
  | Twitch => "Twitch"
  | TikTok => "TikTok"
  | Custom => "Custom"
  | Cheer => "Cheer"
  | Coins => "Coins"
  end.

Definition user_of (e : endpoint) (r : request) : string :=
  default (default_user e) (query_get "user" (req_query r)).

(** The quantity of a request as the endpoint reads it; [None] when [int]
    rejects what the request gives. *)
Definition quantity (int_of_str : string -> option Z) (e : endpoint) (r : request)
  : option Z :=
  match query_get "qty" (req_query r) with
  | Some s => int_of_str s
  | None => Some (match e with Cheer | Coins => 0 | _ => 1 end)
  end.

(** The configured rate of an endpoint: deaths per sub, or bits and coins
    per death. *)
Definition rate (rates : trigger_rates) (e : endpoint) : Z :=
  match e with
  | Twitch => default 3 (deaths_per_twitch_sub rates)
  | TikTok => default 2 (deaths_per_tiktok_sub rates)
  | Custom => 1
  | Cheer => default 100 (bits_per_death rates)
  | Coins => default 100 (coins_per_death rates)
  end.

(** The deaths an endpoint makes of a quantity; [None] when the division
    of bits or coins by a rate of zero raises. *)
Definition owed (rates : trigger_rates) (e : endpoint) (qty : Z) : option Z :=
  match e with
  | Twitch | TikTok => Some (qty * rate rates e)
  | Custom => Some qty
  | Cheer | Coins => if rate rates e =? 0 then None else Some (qty / rate rates e)
  end.

(** The world after one death has been sent for and [n - 1] queued. *)
Definition triggered (env : environment) (user : string) (n : Z) (w : world) : world :=
  let sent := snd (send_deathlink env user w) in
  if 1 <? n then snd (enqueue_deathlinks user (n - 1) sent) else sent.

(** * Properties *)

(** ** Text *)

Section TextFacts.

Implicit Types (s t x : string) (c : ascii) (P : ascii -> bool).

Lemma app_cons c s t : String c s +:+ t = String c (s +:+ t).
Proof. reflexivity. Qed.

Lemma app_empty_r s : s +:+ "" = s.
Proof. induction s as [|c s IH]; [done|]. by rewrite app_cons, IH. Qed.

Lemma isspace_LF : isspace LF = true.
Proof. reflexivity. Qed.

Lemma isspace_CR : isspace CR = true.
Proof. reflexivity. Qed.

Lemma is_lf_spec c : is_lf c = true <-> c = LF.
Proof. unfold is_lf. apply bool_decide_eq_true. Qed.

Lemma is_cr_spec c : is_cr c = true <-> c = CR.
Proof. unfold is_cr. apply bool_decide_eq_true. Qed.

Lemma is_lf_space c : is_lf c = true -> isspace c = true.
Proof. intros ->%is_lf_spec. apply isspace_LF. Qed.

Lemma is_cr_space c : is_cr c = true -> isspace c = true.
Proof. intros ->%is_cr_spec. apply isspace_CR. Qed.

(** *** [string_forall] *)

Lemma string_forall_app P s t :
  string_forall P (s +:+ t) = string_forall P s && string_forall P t.
Proof.
  induction s as [|c s IH]; [done|].
  rewrite app_cons. cbn [string_forall]. rewrite IH. apply andb_assoc.
Qed.

Lemma string_forall_impl P (Q : ascii -> bool) s :
  (forall c, P c = true -> Q c = true) ->
  string_forall P s = true -> string_forall Q s = true.
Proof.
  intros HPQ. induction s as [|c s IH]; [done|].
  cbn [string_forall]. intros [Hc Hs]%andb_true_iff.
  apply andb_true_iff. auto.
Qed.

Lemma string_forall_lstrip P s :
  string_forall P s = true -> string_forall P (lstrip s) = true.
Proof.
  induction s as [|c s IH]; [done|].
  intros H. cbn [lstrip]. destruct (isspace c); [|done].
  apply IH. cbn [string_forall] in H. by apply andb_true_iff in H as [_ ?].
Qed.

Lemma rstrip_cons c s :
  rstrip (String c s) =
    match rstrip s with
    | EmptyString => if isspace c then EmptyString else String c EmptyString
    | String d r => String c (String d r)
    end.
Proof. reflexivity. Qed.

Lemma string_forall_rstrip P s :
  string_forall P s = true -> string_forall P (rstrip s) = true.
Proof.
  induction s as [|c s IH]; [done|].
  cbn [string_forall]. intros [Hc Hs]%andb_true_iff.
  rewrite rstrip_cons. specialize (IH Hs).
  destruct (rstrip s) as [|d r].
  - destruct (isspace c); [done|]. cbn. by rewrite Hc.
  - cbn [string_forall] in *. by rewrite Hc.
Qed.

Lemma string_forall_strip P s :
  string_forall P s = true -> string_forall P (strip s) = true.
Proof. intros H. by apply string_forall_rstrip, string_forall_lstrip. Qed.

(** *** Stripping *)

Lemma lstrip_blank s : string_forall isspace s = true -> lstrip s = "".
Proof.
  induction s as [|c s IH]; [done|].
  cbn [string_forall lstrip]. intros [-> Hs]%andb_true_iff. auto.
Qed.

Lemma lstrip_blank_inv s : string_forall isspace (lstrip s) = true -> string_forall isspace s = true.
Proof.
  induction s as [|c s IH]; [done|].
  cbn [lstrip string_forall]. destruct (isspace c) eqn:E; [auto|].
  cbn [string_forall]. by rewrite E.
Qed.

Lemma rstrip_blank_inv s : rstrip s = "" -> string_forall isspace s = true.
Proof.
  induction s as [|c s IH]; [done|].
  rewrite rstrip_cons. cbn [string_forall].
  destruct (rstrip s) as [|d r]; [|done].
  destruct (isspace c); [auto|done].
Qed.

Lemma strip_blank s : strip s = "" <-> string_forall isspace s = true.
Proof.
  unfold strip. split.
  - intros H. by apply lstrip_blank_inv, rstrip_blank_inv.
  - intros H. by rewrite lstrip_blank.
Qed.

Lemma truthy_false s : truthy s = false <-> s = "".
Proof. by destruct s. Qed.

Lemma truthy_true s : truthy s = true <-> s <> "".
Proof. by destruct s. Qed.

Lemma rstrip_snoc_space s c :
  isspace c = true -> rstrip (s +:+ String c "") = rstrip s.
Proof.
  intros Hc. induction s as [|d s IH].
  - change (rstrip (String c "") = ""). rewrite rstrip_cons. cbn [rstrip]. by rewrite Hc.
  - rewrite app_cons, !rstrip_cons, IH. done.
Qed.

Lemma lstrip_snoc_space s c :
  isspace c = true ->
  lstrip (s +:+ String c "") =
    if string_forall isspace s then "" else lstrip s +:+ String c "".
Proof.
  intros Hc. induction s as [|d s IH].
  - change (lstrip (String c "") = ""). cbn [lstrip]. by rewrite Hc.
  - rewrite app_cons. cbn [lstrip string_forall].
    destruct (isspace d); [exact IH|done].
Qed.

Lemma strip_snoc_space s c : isspace c = true -> strip (s +:+ String c "") = strip s.
Proof.
  intros Hc. unfold strip. rewrite lstrip_snoc_space by done.
  destruct (string_forall isspace s) eqn:E.
  - by rewrite lstrip_blank.
  - by apply rstrip_snoc_space.
Qed.

Lemma lstrip_idem s : lstrip (lstrip s) = lstrip s.
Proof.
  induction s as [|c s IH]; [done|].
  cbn [lstrip]. destruct (isspace c) eqn:E; [done|].
  cbn [lstrip]. by rewrite E.
Qed.

Lemma rstrip_idem s : rstrip (rstrip s) = rstrip s.
Proof.
  induction s as [|c s IH]; [done|].
  rewrite rstrip_cons. destruct (rstrip s) as [|d r] eqn:E.
  - destruct (isspace c) eqn:F; [done|]. cbn. by rewrite F.
  - rewrite rstrip_cons, IH. done.
Qed.

Lemma lstrip_head s :
  lstrip s = s -> match s with EmptyString => True | String c _ => isspace c = false end.
Proof.
  destruct s as [|c s]; [done|]. cbn [lstrip].
  destruct (isspace c) eqn:E; [|done].
  intros H. exfalso.
  assert (Hlen : forall t, (String.length (lstrip t) <= String.length t)%nat).
  { clear. induction t as [|d t IH]; [done|]. cbn [lstrip].
    destruct (isspace d); cbn [String.length]; lia. }
  specialize (Hlen s). rewrite H in Hlen. cbn [String.length] in Hlen. lia.
Qed.

Lemma lstrip_rstrip_fixed s : lstrip s = s -> lstrip (rstrip s) = rstrip s.
Proof.
  intros H%lstrip_head. destruct s as [|c s]; [done|].
  rewrite rstrip_cons. destruct (rstrip s) as [|d r].
  - rewrite H. cbn. by rewrite H.
  - cbn [lstrip]. by rewrite H.
Qed.

Lemma strip_idem s : strip (strip s) = strip s.
Proof.
  unfold strip. rewrite (lstrip_rstrip_fixed (lstrip s)) by apply lstrip_idem.
  apply rstrip_idem.
Qed.

End TextFacts.

Section LineFacts.

Implicit Types (s t x : string) (c : ascii) (P : ascii -> bool).

(** *** Universal newlines *)

Lemma universal_newlines_id s : no_cr s = true -> universal_newlines s = s.
Proof.
  unfold no_cr. induction s as [|c s IH]; [done|].
  cbn [string_forall universal_newlines].
  intros [Hc Hs]%andb_true_iff. apply negb_true_iff in Hc. rewrite Hc.
  by rewrite IH.
Qed.

Lemma universal_newlines_cons c s :
  universal_newlines (String c s) =
    if is_cr c then
      match s with
      | String d s' =>
          if is_lf d then String LF (universal_newlines s')
          else String LF (universal_newlines s)
      | EmptyString => String LF EmptyString
      end
    else String c (universal_newlines s).
Proof. reflexivity. Qed.

(** A property of characters that LF has and CR does not break carries
    over to the translated text. *)
Lemma universal_newlines_forall P s :
  P LF = true ->
  string_forall P s = true -> string_forall P (universal_newlines s) = true.
Proof.
  intros HLF.
  assert (H : forall n s, (String.length s <= n)%nat ->
            string_forall P s = true -> string_forall P (universal_newlines s) = true).
  { clear s. induction n as [|n IH]; intros [|c s] Hlen; try done.
    - cbn [String.length] in Hlen. lia.
    - cbn [String.length] in Hlen.
      rewrite universal_newlines_cons. cbn [string_forall].
      intros [Hc Hs]%andb_true_iff.
      destruct (is_cr c).
      + destruct s as [|d s'].
        * cbn. by rewrite HLF.
        * cbn [string_forall] in Hs. apply andb_true_iff in Hs as [Hd Hs'].
          cbn [String.length] in Hlen.
          destruct (is_lf d); cbn [string_forall]; rewrite HLF; cbn [andb].
          -- apply IH; [lia|done].
          -- apply IH; [cbn [String.length]; lia|].
             cbn [string_forall]. by rewrite Hd.
      + cbn [string_forall]. rewrite Hc. apply IH; [lia|done]. }
  by apply (H (String.length s)).
Qed.

Lemma universal_newlines_no_cr s : no_cr (universal_newlines s) = true.
Proof.
  unfold no_cr.
  assert (H : forall n s, (String.length s <= n)%nat ->
            string_forall (fun c => negb (is_cr c)) (universal_newlines s) = true).
  { clear s. induction n as [|n IH]; intros [|c s] Hlen; try done.
    - cbn [String.length] in Hlen. lia.
    - cbn [String.length] in Hlen.
      rewrite universal_newlines_cons.
      destruct (is_cr c) eqn:Ec.
      + destruct s as [|d s']; [done|].
        cbn [String.length] in Hlen.
        destruct (is_lf d); cbn [string_forall]; apply andb_true_iff; split; try done.
        * apply IH. lia.
        * apply IH. cbn [String.length]. lia.
      + cbn [string_forall]. rewrite Ec. apply IH. lia. }
  by apply (H (String.length s)).
Qed.

(** Blank text stays blank and text with ink keeps it. *)
Lemma universal_newlines_blank s :
  string_forall isspace (universal_newlines s) = string_forall isspace s.
Proof.
  assert (H : forall n s, (String.length s <= n)%nat ->
            string_forall isspace (universal_newlines s) = string_forall isspace s).
  { clear s. induction n as [|n IH]; intros [|c s] Hlen; try done.
    - cbn [String.length] in Hlen. lia.
    - cbn [String.length] in Hlen.
      rewrite universal_newlines_cons.
      destruct (is_cr c) eqn:Ec.
      + apply is_cr_space in Ec. cbn [string_forall]. rewrite Ec.
        destruct s as [|d s']; [done|].
        cbn [String.length] in Hlen.
        destruct (is_lf d) eqn:Ed.
        * apply is_lf_space in Ed. cbn [string_forall]. rewrite Ed, isspace_LF.
          cbn [andb]. apply IH. lia.
        * cbn [string_forall]. rewrite isspace_LF. cbn [andb].
          rewrite IH by (cbn [String.length]; lia). done.
      + cbn [string_forall]. f_equal. apply IH. lia. }
  by apply (H (String.length s)).
Qed.

(** *** Lines *)

Lemma iter_lines_cons c s :
  iter_lines (String c s) =
    if is_lf c then String c EmptyString :: iter_lines s
    else match iter_lines s with
         | [] => [String c EmptyString]
         | l :: ls => String c l :: ls
         end.
Proof. reflexivity. Qed.

Lemma iter_lines_app_nl x t :
  no_lf x = true -> iter_lines (x +:+ nl +:+ t) = (x +:+ nl) :: iter_lines t.
Proof.
  unfold no_lf. induction x as [|c x IH].
  - intros _. reflexivity.
  - cbn [string_forall]. intros [Hc Hx]%andb_true_iff.
    apply negb_true_iff in Hc.
    rewrite !app_cons, iter_lines_cons, Hc, IH by done. done.
Qed.

Lemma iter_lines_single x :
  no_lf x = true -> x <> "" -> iter_lines x = [x].
Proof.
  unfold no_lf. induction x as [|c x IH]; [done|].
  cbn [string_forall]. intros [Hc Hx]%andb_true_iff _.
  apply negb_true_iff in Hc. rewrite iter_lines_cons, Hc.
  destruct x as [|d x]; [done|].
  rewrite IH; done.
Qed.

Lemma iter_lines_forall P s :
  string_forall P s = true ->
  Forall (fun l => string_forall P l = true) (iter_lines s).
Proof.
  induction s as [|c s IH]; [constructor|].
  cbn [string_forall]. intros [Hc Hs]%andb_true_iff.
  specialize (IH Hs). rewrite iter_lines_cons.
  destruct (is_lf c).
  - constructor; [|done]. cbn. by rewrite Hc.
  - destruct (iter_lines s) as [|l ls].
    + constructor; [|done]. cbn. by rewrite Hc.
    + inversion IH; subst. constructor; [|done].
      cbn [string_forall]. by apply andb_true_iff.
Qed.

Lemma iter_lines_forall_inv P s :
  Forall (fun l => string_forall P l = true) (iter_lines s) ->
  string_forall P s = true.
Proof.
  induction s as [|c s IH]; [done|].
  rewrite iter_lines_cons. cbn [string_forall].
  destruct (is_lf c).
  - intros H. inversion H as [|? ? H1 H2]; subst.
    cbn [string_forall] in H1. apply andb_true_iff in H1 as [-> _]. auto.
  - destruct (iter_lines s) as [|l ls] eqn:E.
    + intros H. inversion H as [|? ? H1 H2]; subst.
      cbn [string_forall] in H1. apply andb_true_iff in H1 as [-> _].
      apply IH. constructor.
    + intros H. inversion H as [|? ? H1 H2]; subst.
      cbn [string_forall] in H1. apply andb_true_iff in H1 as [-> Hl].
      apply IH. by constructor.
Qed.

(** Every line is LF-free up to its terminator. *)
Lemma iter_lines_shape s :
  Forall (fun l => exists body, no_lf body = true /\ (l = body \/ l = body +:+ nl))
         (iter_lines s).
Proof.
  induction s as [|c s IH]; [constructor|].
  rewrite iter_lines_cons. destruct (is_lf c) eqn:Ec.
  - constructor; [|done]. exists "". split; [done|]. right.
    apply is_lf_spec in Ec. by subst.
  - destruct (iter_lines s) as [|l ls].
    + constructor; [|done]. exists (String c ""). split; [|by left].
      unfold no_lf. cbn. by rewrite Ec.
    + inversion IH as [|? ? (body & Hb & Hl) Hls]; subst.
      constructor; [|done]. exists (String c body). split.
      * unfold no_lf in *. cbn [string_forall]. by rewrite Ec.
      * destruct Hl as [->| ->]; [by left|by right].
Qed.

End LineFacts.

(** ** The queue file *)

Section QueueFile.

Implicit Types (s t x : string) (c : ascii) (q : list string).

Lemma queue_safe_spec x :
  queue_safe x = true <->
  x <> "" /\ strip x = x /\ no_lf x = true /\ no_cr x = true.
Proof.
  unfold queue_safe, no_linebreak.
  rewrite !andb_true_iff, bool_decide_eq_true, truthy_true. tauto.
Qed.

Lemma stripped_cons l ls :
  map strip (filter (fun line => truthy (strip line) = true) (l :: ls)) =
    if truthy (strip l)
    then strip l :: map strip (filter (fun line => truthy (strip line) = true) ls)
    else map strip (filter (fun line => truthy (strip line) = true) ls).
Proof.
  rewrite filter_cons. destruct (truthy (strip l)) eqn:E.
  - rewrite decide_True by done. done.
  - rewrite decide_False by (by intros ?). done.
Qed.

Lemma stripped_line_safe l :
  no_cr l = true ->
  (exists body, no_lf body = true /\ (l = body \/ l = body +:+ nl)) ->
  truthy (strip l) = true ->
  queue_safe (strip l) = true.
Proof.
  intros Hcr (body & Hbody & Hl) Hink.
  apply queue_safe_spec. split; [by apply truthy_true|].
  split; [apply strip_idem|]. split.
  - destruct Hl as [->| ->]; [by apply string_forall_strip|].
    unfold nl. rewrite strip_snoc_space by apply isspace_LF.
    by apply string_forall_strip.
  - by apply string_forall_strip.
Qed.

(** What the queue helpers read is a list of safe names. *)
Lemma stripped_lines_safe text :
  Forall (fun x => queue_safe x = true) (stripped_lines text).
Proof.
  unfold stripped_lines.
  pose proof (iter_lines_shape (universal_newlines text)) as Hshape.
  pose proof (iter_lines_forall _ _ (universal_newlines_no_cr text)) as Hcr.
  induction Hshape as [|l ls Hl Hls IH].
  - constructor.
  - inversion Hcr as [|? ? Hcl Hcls]; subst.
    rewrite stripped_cons. destruct (truthy (strip l)) eqn:E; [|auto].
    constructor; [|auto]. by apply stripped_line_safe.
Qed.

Lemma join_cons_cons x y q : join nl (x :: y :: q) = x +:+ nl +:+ join nl (y :: q).
Proof. reflexivity. Qed.

Lemma join_no_cr q :
  Forall (fun x => queue_safe x = true) q -> no_cr (join nl q) = true.
Proof.
  induction 1 as [|x q Hx Hq IH]; [done|].
  apply queue_safe_spec in Hx as (_ & _ & _ & Hx).
  destruct q as [|y q]; [done|].
  rewrite join_cons_cons. unfold no_cr in *.
  rewrite !string_forall_app, Hx, IH. done.
Qed.

Lemma lines_of_join q :
  Forall (fun x => queue_safe x = true) q ->
  map strip (filter (fun line => truthy (strip line) = true) (iter_lines (join nl q))) = q.
Proof.
  induction 1 as [|x q Hx Hq IH]; [done|].
  apply queue_safe_spec in Hx as (Hne & Hstrip & Hlf & Hcr).
  destruct q as [|y q].
  - cbn [join]. rewrite iter_lines_single by done.
    rewrite stripped_cons, Hstrip. apply truthy_true in Hne. by rewrite Hne.
  - rewrite join_cons_cons, iter_lines_app_nl by done.
    rewrite stripped_cons. unfold nl at 1 2.
    rewrite strip_snoc_space by apply isspace_LF.
    rewrite Hstrip. apply truthy_true in Hne. rewrite Hne. by rewrite IH.
Qed.

(** Writing safe names and reading them back gives the same list. *)
Lemma stripped_lines_join q :
  Forall (fun x => queue_safe x = true) q -> stripped_lines (join nl q) = q.
Proof.
  intros Hq. unfold stripped_lines.
  rewrite universal_newlines_id by by apply join_no_cr.
  by apply lines_of_join.
Qed.

Lemma read_queue_safe w : Forall (fun x => queue_safe x = true) (read_queue w).
Proof.
  unfold read_queue. destruct (queue_file w); [apply stripped_lines_safe|constructor].
Qed.

Lemma read_after_write q w :
  Forall (fun x => queue_safe x = true) q ->
  read_queue (snd (write_queue q w)) = q.
Proof. intros Hq. cbn. by apply stripped_lines_join. Qed.

End QueueFile.

(** ** Queue operations *)

Section QueueOps.

Implicit Types (w : world) (q : list string) (name : string).

Lemma bind_ok {A B} (m : M A) (k : A -> M B) w a w' :
  m w = (Ok a, w') -> bind m k w = k a w'.
Proof. unfold bind. by intros ->. Qed.

Lemma enqueue_spec name count w :
  enqueue_deathlinks name count w =
    (Ok (Z.of_nat (length (read_queue w ++ replicate (Z.to_nat (Z.max 0 count)) name))),
     set_queue_file (Some (join nl (read_queue w ++ replicate (Z.to_nat (Z.max 0 count)) name))) w).
Proof. reflexivity. Qed.

Lemma dequeue_empty w :
  read_queue w = [] -> dequeue_deathlink w = (Ok (None, 0), w).
Proof. unfold dequeue_deathlink, bind, get. by intros ->. Qed.

Lemma dequeue_cons w name q :
  read_queue w = name :: q ->
  dequeue_deathlink w =
    (Ok (Some name, Z.of_nat (length q)), set_queue_file (Some (join nl q)) w).
Proof. unfold dequeue_deathlink, bind, get. by intros ->. Qed.

Lemma read_queue_set text w :
  read_queue (set_queue_file (Some text) w) = stripped_lines text.
Proof. reflexivity. Qed.

Lemma read_queue_rewritten q w :
  Forall (fun x => queue_safe x = true) q ->
  read_queue (set_queue_file (Some (join nl q)) w) = q.
Proof. intros Hq. rewrite read_queue_set. by apply stripped_lines_join. Qed.

Lemma dequeue_many_spec m : forall w,
  (m <= length (read_queue w))%nat ->
  exists rs w',
    dequeue_many m w = (Ok rs, w')
    /\ map fst rs = map Some (take m (read_queue w))
    /\ read_queue w' = drop m (read_queue w).
Proof.
  induction m as [|m IH]; intros w Hm.
  - exists [], w. by rewrite drop_0.
  - destruct (read_queue w) as [|x q] eqn:Hq; [cbn in Hm; lia|].
    cbn [length] in Hm.
    pose proof (read_queue_safe w) as Hsafe. rewrite Hq in Hsafe.
    inversion Hsafe as [|? ? Hx Hsq]; subst.
    set (w1 := set_queue_file (Some (join nl q)) w).
    assert (Hq1 : read_queue w1 = q) by by apply read_queue_rewritten.
    destruct (IH w1) as (rs & w' & Hrun & Hnames & Hrest); [rewrite Hq1; lia|].
    exists ((Some x, Z.of_nat (length q)) :: rs), w'.
    cbn [dequeue_many].
    rewrite (bind_ok _ _ _ _ _ (dequeue_cons w x q Hq)).
    fold w1. rewrite (bind_ok _ _ _ _ _ Hrun).
    split; [done|]. rewrite Hq1 in Hnames, Hrest.
    cbn [map fst take drop]. by rewrite Hnames, Hrest.
Qed.

Lemma replicate_safe n name :
  queue_safe name = true -> Forall (fun x => queue_safe x = true) (replicate n name).
Proof. intros H. induction n; constructor; done. Qed.

End QueueOps.


Section SplitFacts.

Implicit Types (s t x a b : string) (c : ascii) (w : world).

Lemma universal_newlines_app_nl a b :
  no_cr a = true ->
  universal_newlines (a +:+ nl +:+ b) = a +:+ nl +:+ universal_newlines b.
Proof.
  unfold no_cr. induction a as [|c a IH].
  - intros _. reflexivity.
  - cbn [string_forall]. intros [Hc Ha]%andb_true_iff.
    apply negb_true_iff in Hc.
    rewrite !app_cons, universal_newlines_cons, Hc, IH by done. done.
Qed.

Lemma stripped_blank_lines ls :
  Forall (fun l => string_forall isspace l = true) ls ->
  map strip (filter (fun line => truthy (strip line) = true) ls) = [].
Proof.
  induction 1 as [|l ls Hl Hls IH]; [done|].
  rewrite stripped_cons. apply strip_blank in Hl. by rewrite Hl.
Qed.

Lemma stripped_nil_blank ls :
  map strip (filter (fun line => truthy (strip line) = true) ls) = [] ->
  Forall (fun l => string_forall isspace l = true) ls.
Proof.
  induction ls as [|l ls IH]; [constructor|].
  rewrite stripped_cons. destruct (truthy (strip l)) eqn:E; [done|].
  intros H. constructor; [|auto].
  by apply strip_blank, truthy_false.
Qed.

(** A text without ink holds no entry. *)
Lemma stripped_lines_blank s : strip s = "" -> stripped_lines s = [].
Proof.
  intros H%strip_blank. unfold stripped_lines.
  apply stripped_blank_lines, iter_lines_forall.
  by rewrite universal_newlines_blank.
Qed.

(** A text with ink holds at least one entry. *)
Lemma stripped_lines_ink s : strip s <> "" -> stripped_lines s <> [].
Proof.
  intros Hink Hnil. apply Hink, strip_blank.
  rewrite <- universal_newlines_blank.
  by apply iter_lines_forall_inv, stripped_nil_blank.
Qed.

(** A text of one line holds its stripped form. *)
Lemma stripped_lines_one_line s :
  no_linebreak s = true -> strip s <> "" -> stripped_lines s = [strip s].
Proof.
  unfold no_linebreak. intros [Hlf Hcr]%andb_true_iff Hink.
  unfold stripped_lines. rewrite universal_newlines_id by done.
  rewrite iter_lines_single; [|done|by intros ->].
  rewrite stripped_cons. apply truthy_true in Hink. by rewrite Hink.
Qed.

(** A line break after ink ends the first entry. *)
Lemma stripped_lines_split a b :
  no_linebreak a = true -> strip a <> "" ->
  stripped_lines (a +:+ nl +:+ b) = strip a :: stripped_lines b.
Proof.
  unfold no_linebreak. intros [Hlf Hcr]%andb_true_iff Hink.
  unfold stripped_lines. rewrite universal_newlines_app_nl by done.
  rewrite iter_lines_app_nl by done. rewrite stripped_cons.
  unfold nl at 1 2. rewrite strip_snoc_space by apply isspace_LF.
  apply truthy_true in Hink. by rewrite Hink.
Qed.

Lemma enqueue_one_on_empty name w :
  read_queue w = [] ->
  read_queue (snd (enqueue_deathlinks name 1 w)) = stripped_lines name.
Proof. intros Hq. rewrite enqueue_spec, Hq. reflexivity. Qed.

End SplitFacts.

(** ** The durable queue *)

(** C9, as amended.  For every name and every count,
    [enqueue_deathlinks] returns the previous queue length plus
    [max(0, count)]; when the count is zero or negative the queue read back
    from the file has the same entries, and so the same length, as before
    the call.  The number returned is the length of the queue the file then
    holds, the old entries followed by the copies, when the count is zero or
    negative or the name is not empty, equals its own [strip()] and holds no
    line break. *)
Theorem enqueue_clamps_count (name : string) (count : Z) (w : world) :
  (count <= 0 ->
     read_queue (snd (enqueue_deathlinks name count w)) = read_queue w
     /\ length (read_queue (snd (enqueue_deathlinks name count w)))
        = length (read_queue w))
  /\ fst (enqueue_deathlinks name count w)
     = Ok (Z.of_nat (length (read_queue w)) + Z.max 0 count)
  /\ (count <= 0 \/ queue_safe name = true ->
      read_queue (snd (enqueue_deathlinks name count w))
      = read_queue w ++ replicate (Z.to_nat count) name
      /\ returns_persisted_length name count w).
Proof.
  assert (Hread : count <= 0 \/ queue_safe name = true ->
            read_queue (snd (enqueue_deathlinks name count w))
            = read_queue w ++ replicate (Z.to_nat count) name).
  { intros Hcase. rewrite enqueue_spec. cbn [snd].
    replace (Z.to_nat (Z.max 0 count)) with (Z.to_nat count) by lia.
    apply read_queue_rewritten, Forall_app. split; [apply read_queue_safe|].
    destruct Hcase as [Hle|Hsafe]; [|by apply replicate_safe].
    replace (Z.to_nat count) with 0%nat by lia. constructor. }
  split; [|split].
  - intros Hle. rewrite Hread by by left.
    replace (Z.to_nat count) with 0%nat by lia.
    cbn [replicate]. by rewrite app_nil_r.
  - rewrite enqueue_spec. cbn [fst]. f_equal.
    rewrite length_app, length_replicate. lia.
  - intros Hcase. split; [by apply Hread|].
    unfold returns_persisted_length. rewrite (Hread Hcase).
    rewrite enqueue_spec. cbn [fst].
    replace (Z.to_nat (Z.max 0 count)) with (Z.to_nat count) by lia. done.
Qed.

Lemma enqueue_clamps_count_witness :
  read_queue (snd (enqueue_deathlinks "A" (-5) (boot sample_config (Some "A"))))
  = read_queue (boot sample_config (Some "A"))
  /\ returns_persisted_length "Bob" 2 (boot sample_config (Some "A")).
Proof.
  split.
  - apply (enqueue_clamps_count "A" (-5) (boot sample_config (Some "A"))). lia.
  - apply (enqueue_clamps_count "Bob" 2 (boot sample_config (Some "A"))).
    right. reflexivity.
Defined.

(** C9 as stated fails for a name of one space: with ["A"] queued,
    [enqueue_deathlinks(" ", 1)] returns 2, the old length plus one, but the
    line it adds is blank and the queue the file holds has one entry. *)
Lemma enqueue_blank_name_length :
  ~ returns_persisted_length " " 1 (boot sample_config (Some "A")).
Proof. unfold returns_persisted_length. vm_compute. discriminate. Qed.

(** C2, as amended.  For every starting queue and every name that is not
    empty, equals its own [strip()] and holds no line break, and every
    [n >= 1]: after [enqueue_deathlinks(name, n)], [n] calls of
    [dequeue_deathlink] return the first [n] entries of the old queue
    followed by the copies, they leave the queue at its length before the
    enqueue, and draining the queue returns the old entries and then the
    [n] copies, in that order. *)
Theorem fifo_round_trip_safe_names (w : world) (name : string) (n : Z) :
  1 <= n -> queue_safe name = true -> fifo_round_trip w name n.
Proof.
  intros Hn Hname. unfold fifo_round_trip.
  rewrite enqueue_spec. cbn [snd].
  replace (Z.max 0 n) with n by lia.
  set (before := read_queue w). set (copies := replicate (Z.to_nat n) name).
  set (w1 := set_queue_file _ w).
  assert (Hq1 : read_queue w1 = before ++ copies).
  { apply read_queue_rewritten, Forall_app. split.
    - apply read_queue_safe.
    - by apply replicate_safe. }
  assert (Hlen : length (before ++ copies) = (length before + Z.to_nat n)%nat).
  { rewrite length_app. unfold copies. by rewrite length_replicate. }
  destruct (dequeue_many_spec (Z.to_nat n) w1) as (rs & w' & Hrun & Hnames & Hrest);
    [rewrite Hq1; lia|].
  destruct (dequeue_many_spec (length before + Z.to_nat n) w1)
    as (rs2 & w2 & Hrun2 & Hnames2 & Hrest2); [rewrite Hq1; lia|].
  rewrite Hrun, Hrun2. cbn [fst snd dequeued_names].
  rewrite Hnames, Hnames2, Hrest, Hrest2, Hq1.
  split; [done|]. split.
  - rewrite length_drop. lia.
  - rewrite <- Hlen, firstn_all, drop_all. done.
Qed.

Lemma fifo_round_trip_safe_names_witness :
  fifo_round_trip (boot sample_config (Some "A")) "B" 2.
Proof. apply fifo_round_trip_safe_names; [lia|reflexivity]. Defined.

(** C2 as stated fails for a name of one space: with ["A"] queued,
    [enqueue_deathlinks(" ", 1)] writes a blank line that the next read
    skips, so one [dequeue_deathlink] returns ["A"] and leaves no entry,
    not the one entry there was before the enqueue. *)
Lemma fifo_round_trip_blank_name :
  ~ fifo_round_trip (boot sample_config (Some "A")) " " 1.
Proof.
  unfold fifo_round_trip. intros (_ & Hlen & _). vm_compute in Hlen. discriminate.
Qed.

(** C10.  On an empty queue, [enqueue_deathlinks(name, 1)] followed by
    [dequeue_deathlink()]: a name without a line break (LF or CR, the line
    ends of text mode) and with ink comes back stripped of leading and
    trailing whitespace; a name of whitespace only leaves the queue empty
    and the dequeue reports [(None, 0)]; a name with a newline between two
    inked segments becomes several entries, and the dequeue returns the
    first segment only, stripped.  So the call returns [name] itself only
    when [name] is not empty, equals its own [strip()] and holds no line
    break. *)
Theorem round_trip_strips_and_splits (name : string) (w : world) :
  read_queue w = [] ->
  let w1 := snd (enqueue_deathlinks name 1 w) in
  (no_linebreak name = true -> strip name <> "" ->
     fst (dequeue_deathlink w1) = Ok (Some (strip name), 0))
  /\ (strip name = "" ->
        read_queue w1 = [] /\ fst (dequeue_deathlink w1) = Ok (None, 0))
  /\ (forall a b, name = a +:+ nl +:+ b ->
        no_linebreak a = true -> strip a <> "" -> strip b <> "" ->
        read_queue w1 = strip a :: stripped_lines b
        /\ (1 < length (read_queue w1))%nat
        /\ fst (dequeue_deathlink w1)
           = Ok (Some (strip a), Z.of_nat (length (stripped_lines b))))
  /\ (forall remaining,
        fst (dequeue_deathlink w1) = Ok (Some name, remaining) ->
        name <> "" /\ strip name = name /\ no_linebreak name = true).
Proof.
  intros Hq w1. pose proof (enqueue_one_on_empty name w Hq) as Hw1. fold w1 in Hw1.
  split; [|split; [|split]].
  - intros Hbreak Hink.
    rewrite (dequeue_cons w1 (strip name) []); [done|].
    rewrite Hw1. by apply stripped_lines_one_line.
  - intros Hblank.
    assert (Hnil : read_queue w1 = []) by (rewrite Hw1; by apply stripped_lines_blank).
    split; [done|]. by rewrite dequeue_empty.
  - intros a b -> Ha Hinka Hinkb.
    assert (Hsplit : read_queue w1 = strip a :: stripped_lines b)
      by (rewrite Hw1; by apply stripped_lines_split).
    split; [done|]. split.
    + rewrite Hsplit. pose proof (stripped_lines_ink b Hinkb).
      destruct (stripped_lines b); [done|]. cbn [length]. lia.
    + by rewrite (dequeue_cons w1 _ _ Hsplit).
  - intros remaining Hret.
    pose proof (read_queue_safe w1) as Hsafe.
    destruct (read_queue w1) as [|x q] eqn:E.
    + rewrite dequeue_empty in Hret by done. discriminate.
    + rewrite (dequeue_cons w1 x q E) in Hret. cbn [fst] in Hret.
      injection Hret as -> _.
      inversion Hsafe as [|? ? Hx _]; subst.
      apply queue_safe_spec in Hx as (? & ? & ? & ?).
      unfold no_linebreak. split; [done|]. split; [done|]. by apply andb_true_iff.
Qed.

Lemma round_trip_strips_and_splits_witness :
  fst (dequeue_deathlink
         (snd (enqueue_deathlinks " Bob " 1 (boot sample_config None))))
  = Ok (Some "Bob", 0).
Proof.
  apply (round_trip_strips_and_splits " Bob " (boot sample_config None) eq_refl);
    [reflexivity|vm_compute; discriminate].
Defined.

Section SendFacts.

Implicit Types (w : world) (env : environment) (name : string).

Lemma send_inactive env name w :
  session_inactive w = true -> send_deathlink env name w = (Ok PyNone, w).
Proof. intros H. unfold send_deathlink, bind, get. by rewrite H. Qed.

Lemma session_active_inv w :
  session_inactive w = false ->
  client_connected w = true /\ exists ws, archipelago_ws w = Some ws.
Proof.
  unfold session_inactive. intros [H1 H2]%orb_false_iff.
  apply negb_false_iff in H1, H2. apply bool_decide_eq_true in H1 as [ws Hws].
  eauto.
Qed.

(** With a session and a connection that still sends. *)
Lemma send_active_open env name w ws :
  session_inactive w = false -> archipelago_ws w = Some ws -> ws_open ws = true ->
  send_deathlink env name w =
    (Ok PyNone,
     set_trigger_file (Some EmptyString)
       (set_trigger_file (Some name)
          (set_recent_outbound
             (deque_append (env_uuid4 env, name, env_time env) (recent_outbound w))
             (set_archipelago_ws
                (Some {| ws_open := true;
                         ws_sent := ws_sent ws ++ [Dumps [make_payload env name]] |})
                (set_deathlink_stats (incremented name (deathlink_stats w)) w))))).
Proof.
  intros Hact Hws Hopen.
  unfold send_deathlink, bind, get, try_except, archipelago_send, modify, ret.
  rewrite Hact. cbn. rewrite Hws, Hopen. reflexivity.
Qed.

(** With a session whose connection has gone down: [send] raises. *)
Lemma send_active_closed env name w ws :
  session_inactive w = false -> archipelago_ws w = Some ws -> ws_open ws = false ->
  send_deathlink env name w =
    (Ok PyNone, set_deathlink_stats (incremented name (deathlink_stats w)) w).
Proof.
  intros Hact Hws Hopen.
  unfold send_deathlink, bind, get, try_except, archipelago_send, modify, ret, raise.
  rewrite Hact. cbn. rewrite Hws, Hopen. reflexivity.
Qed.

Lemma send_returns_none env name w : fst (send_deathlink env name w) = Ok PyNone.
Proof.
  destruct (session_inactive w) eqn:Hact.
  - by rewrite send_inactive.
  - destruct (session_active_inv w Hact) as (_ & ws & Hws).
    destruct (ws_open ws) eqn:Hopen.
    + by rewrite (send_active_open env name w ws).
    + by rewrite (send_active_closed env name w ws).
Qed.

Lemma length_deque_append {A} (x : A) (d : list A) :
  (length d <= maxlen)%nat -> (length (deque_append x d) <= maxlen)%nat.
Proof.
  intros Hd. unfold deque_append.
  destruct (Nat.ltb_spec maxlen (length (d ++ [x]))) as [Hlt|Hge]; [|done].
  rewrite length_drop, length_app. cbn [length]. lia.
Qed.

Lemma deque_append_room {A} (x : A) (d : list A) :
  (length d < maxlen)%nat -> deque_append x d = d ++ [x].
Proof.
  intros Hd. unfold deque_append.
  destruct (Nat.ltb_spec maxlen (length (d ++ [x]))) as [Hlt|Hge]; [|done].
  rewrite length_app in Hlt. cbn [length] in Hlt. lia.
Qed.

Lemma deque_append_full {A} (x oldest : A) (rest : list A) :
  length (oldest :: rest) = maxlen -> deque_append x (oldest :: rest) = rest ++ [x].
Proof.
  intros Hd. unfold deque_append.
  destruct (Nat.ltb_spec maxlen (length ((oldest :: rest) ++ [x]))) as [Hlt|Hge].
  - reflexivity.
  - rewrite length_app in Hge. cbn [length] in *. lia.
Qed.

Lemma last_deque_append {A} (x : A) (d : list A) :
  last (deque_append x d) = Some x.
Proof.
  unfold deque_append.
  destruct (maxlen <? length (d ++ [x]))%nat eqn:E; [|apply last_snoc].
  apply Nat.ltb_lt in E. destruct d as [|r d].
  - unfold maxlen in E. cbn in E. lia.
  - cbn [app drop]. rewrite drop_0. apply last_snoc.
Qed.

End SendFacts.

(** ** The send path *)

(** C3, as amended.  For every source name, [send_deathlink] called while
    the session is not active (no upstream connection object, or the
    connected flag false) leaves the whole state, [deathlink_stats]
    included, as it was and raises nothing; it returns [None], which is also
    what every other call returns, a successful send included. *)
Theorem send_without_session (env : environment) (source_name : string) (w : world) :
  session_inactive w = true ->
  send_deathlink env source_name w = (Ok PyNone, w)
  /\ deathlink_stats (snd (send_deathlink env source_name w)) = deathlink_stats w
  /\ forall w_ok, fst (send_deathlink env source_name w_ok) = Ok PyNone.
Proof.
  intros H. rewrite send_inactive by done.
  split; [done|]. split; [done|]. intros w_ok. apply send_returns_none.
Qed.

Lemma send_without_session_witness :
  send_deathlink sample_env "A" (boot sample_config None)
  = (Ok PyNone, boot sample_config None).
Proof. apply (send_without_session sample_env "A" (boot sample_config None)). reflexivity. Defined.

(** C3 as stated fails on the return value: the call without a session and
    the call that sends on an open connection both return [None]. *)
Lemma send_failure_looks_like_success :
  ~ failure_is_distinguishable sample_env "A" (boot sample_config None).
Proof.
  intros H. apply (H (in_session open_socket None)); reflexivity.
Qed.

(** C4, as amended.  For every name, one call of [send_deathlink(name)]
    with an active session sets [deathlink_stats[name]] to its old value
    (0 if absent) plus 1; when the transmission goes through, the record
    [(nonce, name, now)] of this call is appended to the registry as its
    newest entry (behind all old ones while there is room); when the
    transmission raises, the registry is left as it was. *)
Theorem send_with_session (env : environment) (name : string) (w : world) (ws : websocket) :
  session_inactive w = false -> archipelago_ws w = Some ws ->
  let w' := snd (send_deathlink env name w) in
  deathlink_stats w' = <[name := default 0 (deathlink_stats w !! name) + 1]> (deathlink_stats w)
  /\ (ws_open ws = true ->
        send_appends_record env name w
        /\ last (recent_outbound w') = Some (env_uuid4 env, name, env_time env)
        /\ ((length (recent_outbound w) < maxlen)%nat ->
              recent_outbound w' = recent_outbound w ++ [(env_uuid4 env, name, env_time env)]))
  /\ (ws_open ws = false -> recent_outbound w' = recent_outbound w).
Proof.
  intros Hact Hws w'. subst w'. unfold send_appends_record.
  destruct (ws_open ws) eqn:Hopen.
  - rewrite (send_active_open env name w ws) by done. cbn [snd].
    split; [done|]. split; [|done]. intros _.
    split; [done|]. split.
    + apply last_deque_append.
    + intros Hroom. cbn. by apply deque_append_room.
  - rewrite (send_active_closed env name w ws) by done. cbn [snd].
    split; [done|]. split; [intros ?; discriminate|done].
Qed.

Lemma send_with_session_witness :
  deathlink_stats (snd (send_deathlink sample_env "A" (in_session open_socket None))) !! "A" = Some 1
  /\ recent_outbound (snd (send_deathlink sample_env "A" (in_session open_socket None)))
     = [("n-1", "A", 0%Q)].
Proof.
  pose proof (send_with_session sample_env "A" (in_session open_socket None) open_socket
                eq_refl eq_refl) as (Hstats & Hopen & _).
  split.
  - rewrite Hstats. apply lookup_insert_eq.
  - destruct (Hopen eq_refl) as (_ & _ & Happ). apply Happ. cbn. unfold maxlen. lia.
Defined.

(** C4 as stated fails when the upstream connection is down while the
    session still counts as active: the count is incremented, [send]
    raises, and no record reaches the registry. *)
Lemma send_on_dead_connection :
  ~ send_appends_record sample_env "A" (in_session closed_socket None).
Proof. unfold send_appends_record. vm_compute. discriminate. Qed.

Section DispatcherFacts.

Implicit Types (w : world) (env : environment) (name : string).

Lemma queue_head_truthy w name q : read_queue w = name :: q -> truthy name = true.
Proof.
  intros Hq. pose proof (read_queue_safe w) as Hsafe. rewrite Hq in Hsafe.
  inversion Hsafe as [|? ? Hx _]; subst.
  apply queue_safe_spec in Hx as (Hne & _). by apply truthy_true.
Qed.

Lemma dequeue_some_inv w name remaining :
  fst (dequeue_deathlink w) = Ok (Some name, remaining) ->
  exists q, read_queue w = name :: q /\ remaining = Z.of_nat (length q).
Proof.
  destruct (read_queue w) as [|x q] eqn:E.
  - rewrite dequeue_empty by done. discriminate.
  - rewrite (dequeue_cons w x q E). cbn [fst]. intros [= -> <-]. eauto.
Qed.

Lemma dispatcher_turn_empty env w :
  read_queue w = [] -> dispatcher_turn env w = (Ok 5, w).
Proof.
  intros Hq. unfold dispatcher_turn.
  rewrite (bind_ok _ _ _ _ _ (dequeue_empty w Hq)). reflexivity.
Qed.

(** The turn once an entry has been taken: [w1] is the world with the
    queue file rewritten. *)
Lemma dispatcher_turn_cons env w name q :
  read_queue w = name :: q ->
  let w1 := set_queue_file (Some (join nl q)) w in
  dispatcher_turn env w =
    if negb (client_connected w) then (Ok 5, w1)
    else
      bind (send_deathlink env name)
           (fun _ => randint env (min_seconds w)
                       (if max_seconds w <? min_seconds w then min_seconds w
                        else max_seconds w)) w1.
Proof.
  intros Hq w1. unfold dispatcher_turn.
  rewrite (bind_ok _ _ _ _ _ (dequeue_cons w name q Hq)).
  cbn [fst]. rewrite (queue_head_truthy w name q Hq).
  unfold bind at 1, get. fold w1.
  change (client_connected w1) with (client_connected w).
  destruct (client_connected w); reflexivity.
Qed.

Lemma randint_clamped env a b :
  randint env a (if b <? a then a else b) =
    ret (env_randint env a (if b <? a then a else b)).
Proof.
  unfold randint. destruct (Z.ltb_spec b a) as [Hlt|Hge].
  - by rewrite Z.ltb_irrefl.
  - destruct (Z.ltb_spec b a); [lia|done].
Qed.

(** The send path does not look at the configuration. *)
Lemma send_with_max env name m w :
  snd (send_deathlink env name (with_max m w))
  = with_max m (snd (send_deathlink env name w)).
Proof.
  destruct (session_inactive w) eqn:Hact.
  - rewrite !send_inactive by done. done.
  - destruct (session_active_inv w Hact) as (_ & ws & Hws).
    destruct (ws_open ws) eqn:Hopen.
    + rewrite (send_active_open env name w ws) by done.
      rewrite (send_active_open env name (with_max m w) ws) by done. done.
    + rewrite (send_active_closed env name w ws) by done.
      rewrite (send_active_closed env name (with_max m w) ws) by done. done.
Qed.

End DispatcherFacts.

(** ** The dispatcher *)

(** C6.  For every turn of the dispatcher in which [dequeue_deathlink]
    returns an entry while the session is not active: the queue read back
    afterwards is the old queue without its first entry, one shorter, with
    the entry put back nowhere; nothing is sent on the upstream connection,
    and neither [deathlink_stats] nor the registry changes.  The turn itself
    ends normally, with a pause. *)
Theorem dispatcher_drops_when_inactive
    (env : environment) (w : world) (name : string) (remaining : Z) :
  fst (dequeue_deathlink w) = Ok (Some name, remaining) ->
  session_inactive w = true ->
  let w' := snd (dispatcher_turn env w) in
  read_queue w' = tail (read_queue w)
  /\ Z.of_nat (length (read_queue w')) = Z.of_nat (length (read_queue w)) - 1
  /\ archipelago_ws w' = archipelago_ws w
  /\ deathlink_stats w' = deathlink_stats w
  /\ recent_outbound w' = recent_outbound w
  /\ exists pause, fst (dispatcher_turn env w) = Ok pause.
Proof.
  intros (q & Hq & _)%dequeue_some_inv Hinact w'. subst w'.
  rewrite (dispatcher_turn_cons env w name q Hq).
  set (w1 := set_queue_file (Some (join nl q)) w).
  assert (Hq1 : read_queue w1 = q).
  { apply read_queue_rewritten. pose proof (read_queue_safe w) as Hsafe.
    rewrite Hq in Hsafe. by inversion Hsafe. }
  assert (Hturn : exists pause,
    (if negb (client_connected w) then (Ok 5, w1)
     else bind (send_deathlink env name)
            (fun _ => randint env (min_seconds w)
                        (if max_seconds w <? min_seconds w then min_seconds w
                         else max_seconds w)) w1) = (Ok pause, w1)).
  { destruct (client_connected w) eqn:Hcc; cbn [negb]; [|eauto].
    assert (Hinact1 : session_inactive w1 = true) by exact Hinact.
    rewrite (bind_ok _ _ _ _ _ (send_inactive env name w1 Hinact1)).
    rewrite randint_clamped. unfold ret. eauto. }
  destruct Hturn as (pause & ->). cbn [fst snd].
  rewrite Hq1, Hq. cbn [tail length].
  repeat split; try done; [lia|eauto].
Qed.

Lemma dispatcher_drops_when_inactive_witness :
  read_queue (snd (dispatcher_turn sample_env (boot sample_config (Some sample_queue))))
  = ["A"; "B"].
Proof.
  apply (dispatcher_drops_when_inactive sample_env
           (boot sample_config (Some sample_queue)) "A" 2 eq_refl eq_refl).
Defined.

(** C8.  For every turn that takes an entry with a client connected, and a
    generator whose draws lie in the range asked for: the pause after the
    send lies within [min, max(min, max)] of the configured seconds; when
    [max_dispatch_seconds] is below [min_dispatch_seconds] the pause is
    [min_dispatch_seconds], and the turn is the one a configuration with
    [max_dispatch_seconds] equal to [min_dispatch_seconds] gives. *)
Theorem dispatch_pause_clamped
    (env : environment) (w : world) (name : string) (remaining : Z) :
  randint_in_range env ->
  fst (dequeue_deathlink w) = Ok (Some name, remaining) ->
  client_connected w = true ->
  exists pause,
    fst (dispatcher_turn env w) = Ok pause
    /\ min_seconds w <= pause <= Z.max (min_seconds w) (max_seconds w)
    /\ (max_seconds w < min_seconds w ->
          pause = min_seconds w
          /\ dispatcher_turn env (with_max (min_seconds w) w)
             = (Ok pause, with_max (min_seconds w) (snd (dispatcher_turn env w)))).
Proof.
  intros Hrand (q & Hq & _)%dequeue_some_inv Hcc.
  set (hi := if max_seconds w <? min_seconds w then min_seconds w else max_seconds w).
  assert (Hhi : hi = Z.max (min_seconds w) (max_seconds w)).
  { unfold hi. destruct (Z.ltb_spec (max_seconds w) (min_seconds w)); lia. }
  assert (Hturn : forall w0, read_queue w0 = name :: q -> client_connected w0 = true ->
            dispatcher_turn env w0
            = (Ok (env_randint env (min_seconds w0)
                     (if max_seconds w0 <? min_seconds w0 then min_seconds w0
                      else max_seconds w0)),
               snd (send_deathlink env name (set_queue_file (Some (join nl q)) w0)))).
  { intros w0 Hq0 Hcc0. rewrite (dispatcher_turn_cons env w0 name q Hq0), Hcc0.
    cbn [negb]. unfold bind.
    destruct (send_deathlink env name _) as [r w2] eqn:Hsend.
    pose proof (send_returns_none env name (set_queue_file (Some (join nl q)) w0)) as Hr.
    rewrite Hsend in Hr. cbn [fst] in Hr. subst r.
    by rewrite randint_clamped. }
  exists (env_randint env (min_seconds w) hi).
  rewrite (Hturn w Hq Hcc). fold hi. cbn [fst snd].
  split; [done|]. split.
  - rewrite <- Hhi. apply Hrand. lia.
  - intros Hinv.
    assert (Hmin : hi = min_seconds w).
    { unfold hi. by destruct (Z.ltb_spec (max_seconds w) (min_seconds w)); [|lia]. }
    rewrite Hmin.
    assert (Hdraw : env_randint env (min_seconds w) (min_seconds w) = min_seconds w).
    { pose proof (Hrand (min_seconds w) (min_seconds w)). lia. }
    split; [done|].
    rewrite (Hturn (with_max (min_seconds w) w)); [|done|done].
    change (min_seconds (with_max (min_seconds w) w)) with (min_seconds w).
    change (max_seconds (with_max (min_seconds w) w)) with (min_seconds w).
    rewrite Z.ltb_irrefl. f_equal.
    apply (send_with_max env name (min_seconds w) (set_queue_file (Some (join nl q)) w)).
Qed.

Lemma dispatch_pause_clamped_witness :
  exists pause,
    fst (dispatcher_turn sample_env (in_session open_socket (Some sample_queue))) = Ok pause
    /\ 480 <= pause <= Z.max 480 240.
Proof.
  destruct (dispatch_pause_clamped sample_env
              (in_session open_socket (Some sample_queue)) "A" 2)
    as (pause & Hturn & Hrange & _).
  - intros a b Hab. cbn. lia.
  - reflexivity.
  - reflexivity.
  - exists pause. split; [exact Hturn|exact Hrange].
Defined.

(** The scenario of the specification: with ["A"], ["A"], ["B"] queued and
    a session up, three turns send for A, A and B in that order, pause
    within the configured bounds each time, and leave the queue empty. *)
Example dispatcher_drains_in_order :
  let w := in_session open_socket (Some sample_queue) in
  let turns := staged_deathlink_dispatcher [burst_env 0; burst_env 1; burst_env 2] w in
  fst turns = Ok [480; 480; 480]
  /\ map (fun r : outbound_record => snd (fst r)) (recent_outbound (snd turns))
     = ["A"; "A"; "B"]
  /\ read_queue (snd turns) = [].
Proof. vm_compute. repeat split. Qed.

Section RelayFacts.

Implicit Types (w : world) (item : json) (dl : list (string * json)).

Lemma inbound_frame_refl w : inbound_frame w w.
Proof. by repeat split. Qed.

Lemma inbound_frame_trans w1 w2 w3 :
  inbound_frame w1 w2 -> inbound_frame w2 w3 -> inbound_frame w1 w3.
Proof.
  unfold inbound_frame. intros (?&?&?&?&?&?&?) (?&?&?&?&?&?&?).
  repeat split; congruence.
Qed.

(** The guard reads the item only. *)
Lemma deathlink_in_tags_pure tags :
  exists r, forall w, deathlink_in_tags tags w = (r, w).
Proof.
  destruct tags as [[]|]; cbn; eauto.
Qed.

Lemma deathlink_record_pure item :
  exists r, forall w, deathlink_record item w = (r, w).
Proof.
  destruct item as [| | | | |kv]; try (by eexists; intros; reflexivity).
  unfold deathlink_record. destruct (cmd_is_bounce _); [|by eexists].
  destruct (deathlink_in_tags_pure (dict_get "tags" kv)) as [[[]|e] Hr].
  - destruct (dict_get "data" kv) as [[]|];
      eexists; intros w; unfold bind; rewrite Hr; reflexivity.
  - eexists. intros w. unfold bind. rewrite Hr. reflexivity.
  - eexists. intros w. unfold bind. rewrite Hr. reflexivity.
Qed.

Lemma deathlink_record_world item w : snd (deathlink_record item w) = w.
Proof. destruct (deathlink_record_pure item) as [r Hr]. by rewrite Hr. Qed.

Lemma classify_item_guarded item dl w :
  fst (deathlink_record item w) = Ok (Some dl) ->
  classify_item item w = count_inbound dl w.
Proof.
  intros H. unfold classify_item, bind.
  pose proof (deathlink_record_world item w) as Hw.
  destruct (deathlink_record item w) as [r w0]. cbn in H, Hw. by subst.
Qed.

Lemma classify_item_unguarded item w :
  fst (deathlink_record item w) = Ok None -> classify_item item w = (Ok tt, w).
Proof.
  intros H. unfold classify_item, bind.
  pose proof (deathlink_record_world item w) as Hw.
  destruct (deathlink_record item w) as [r w0]. cbn in H, Hw. by subst.
Qed.

Lemma classify_item_raised item e w :
  fst (deathlink_record item w) = Raise e -> classify_item item w = (Raise e, w).
Proof.
  intros H. unfold classify_item, bind.
  pose proof (deathlink_record_world item w) as Hw.
  destruct (deathlink_record item w) as [r w0]. cbn in H, Hw. by subst.
Qed.

(** The four ways through the body. *)
Lemma count_inbound_echo dl w :
  is_echo dl (recent_outbound w) = true -> count_inbound dl w = (Ok tt, w).
Proof. intros H. unfold count_inbound, bind, get. by rewrite H. Qed.

Lemma count_inbound_unhashable dl w :
  is_echo dl (recent_outbound w) = false -> hash_key (source_of dl) = None ->
  count_inbound dl w = (Raise TypeError, w).
Proof.
  intros H Hk. unfold count_inbound, bind, get, count_player_death.
  by rewrite H, Hk.
Qed.

Lemma count_inbound_name dl w s :
  is_echo dl (recent_outbound w) = false -> source_of dl = JStr s ->
  count_inbound dl w =
    (Ok tt,
     set_banner_tasks (S (banner_tasks w))
       (set_trigger_file (Some s)
          (set_player_death_stats
             (<[KStr s := default 0 (player_death_stats w !! KStr s) + 1]>
                (player_death_stats w)) w))).
Proof.
  intros H Hs. unfold count_inbound, bind, get, count_player_death.
  by rewrite H, Hs.
Qed.

Lemma count_inbound_scalar dl w k :
  is_echo dl (recent_outbound w) = false -> hash_key (source_of dl) = Some k ->
  (forall s, source_of dl <> JStr s) ->
  count_inbound dl w =
    (Raise TypeError,
     set_trigger_file (Some EmptyString)
       (set_player_death_stats
          (<[k := default 0 (player_death_stats w !! k) + 1]>
             (player_death_stats w)) w)).
Proof.
  intros H Hk Hs. unfold count_inbound, bind, get, count_player_death.
  rewrite H, Hk. cbn.
  destruct (source_of dl); try done. by destruct (Hs s).
Qed.

Lemma count_inbound_stats dl w k :
  is_echo dl (recent_outbound w) = false -> hash_key (source_of dl) = Some k ->
  player_death_stats (snd (count_inbound dl w))
  = <[k := default 0 (player_death_stats w !! k) + 1]> (player_death_stats w).
Proof.
  intros H Hk. destruct (source_of dl) as [| | |s| |] eqn:Hs;
    try (rewrite (count_inbound_scalar dl w k) by (rewrite ?Hs; done); done).
  rewrite (count_inbound_name dl w s) by done. cbn in Hk. by injection Hk as <-.
Qed.

Lemma count_inbound_frame dl w : inbound_frame w (snd (count_inbound dl w)).
Proof.
  destruct (is_echo dl (recent_outbound w)) eqn:H.
  - rewrite count_inbound_echo by done. apply inbound_frame_refl.
  - destruct (hash_key (source_of dl)) as [k|] eqn:Hk.
    + destruct (source_of dl) as [| | |s| |] eqn:Hs;
        try (rewrite (count_inbound_scalar dl w k) by (rewrite ?Hs; done);
             by repeat split).
      rewrite (count_inbound_name dl w s) by done. by repeat split.
    + rewrite count_inbound_unhashable by done. apply inbound_frame_refl.
Qed.

Lemma classify_item_frame item w : inbound_frame w (snd (classify_item item w)).
Proof.
  destruct (fst (deathlink_record item w)) as [[dl|]|e] eqn:H.
  - rewrite (classify_item_guarded item dl w H). apply count_inbound_frame.
  - rewrite (classify_item_unguarded item w H). apply inbound_frame_refl.
  - rewrite (classify_item_raised item e w H). apply inbound_frame_refl.
Qed.

Lemma for_each_frame items : forall w,
  inbound_frame w (snd (for_each classify_item items w)).
Proof.
  induction items as [|item items IH]; intros w; [apply inbound_frame_refl|].
  cbn [for_each]. unfold bind.
  pose proof (classify_item_frame item w) as Hitem.
  destruct (classify_item item w) as [[[]|e] w1]; cbn [snd] in *; [|done].
  eapply inbound_frame_trans; [exact Hitem|apply IH].
Qed.

Lemma for_each_app {A} (body : A -> M unit) (xs ys : list A) w w1 :
  for_each body xs w = (Ok tt, w1) ->
  for_each body (xs ++ ys) w = for_each body ys w1.
Proof.
  revert w. induction xs as [|x xs IH]; intros w.
  - cbn. by intros [= ->].
  - cbn [for_each app]. unfold bind. destruct (body x w) as [[[]|e] w0]; [|done].
    apply IH.
Qed.

Section WithLoads.

Variable loads : string -> option json.

Lemma inspect_frame message w : inbound_frame w (snd (inspect loads message w)).
Proof.
  unfold inspect, json_loads, bind.
  destruct (loads message) as [data|]; [|apply inbound_frame_refl].
  cbn. destruct data; try apply inbound_frame_refl. apply for_each_frame.
Qed.

Lemma inspect_malformed message w :
  loads message = None -> inspect loads message w = (Raise ValueError, w).
Proof. intros H. unfold inspect, json_loads, bind. by rewrite H. Qed.

Lemma turn_closed message w :
  ws_open (client_ws w) = false ->
  server_to_client_turn loads message w = (Raise ConnectionClosed, w).
Proof.
  intros H. unfold server_to_client_turn, client_send, bind, get. by rewrite H.
Qed.

(** With the local client reachable, a turn is the forwarding followed by
    the guarded inspection. *)
Lemma turn_open message w :
  ws_open (client_ws w) = true ->
  server_to_client_turn loads message w
  = try_except (inspect loads message) (fun _ => ret tt) (forwarded message w).
Proof.
  intros H. unfold server_to_client_turn, client_send, bind, get. by rewrite H.
Qed.

Lemma turn_envelope message items w :
  ws_open (client_ws w) = true -> loads message = Some (JArr items) ->
  server_to_client_turn loads message w
  = try_except (for_each classify_item items) (fun _ => ret tt) (forwarded message w).
Proof.
  intros H Hl. rewrite turn_open by done.
  unfold try_except, inspect, json_loads, bind. by rewrite Hl.
Qed.

Lemma try_except_pass_ok (body : M unit) w :
  fst (try_except body (fun _ => ret tt) w) = Ok tt.
Proof. unfold try_except. by destruct (body w) as [[[]|e] w']. Qed.

Lemma try_except_pass_world (body : M unit) w :
  snd (try_except body (fun _ => ret tt) w) = snd (body w).
Proof. unfold try_except. by destruct (body w) as [[[]|e] w']. Qed.

End WithLoads.

Lemma is_echo_true dl registry :
  is_echo dl registry = true <->
  dict_get "origin" dl = Some (JStr "LOCAL_BOT")
  \/ exists r, r ∈ registry /\ dict_get "nonce" dl = Some (JStr (record_nonce r)).
Proof.
  unfold is_echo, is_our_nonce. rewrite orb_true_iff, existsb_exists. split.
  - intros [H|(r & Hr & H)].
    + left. unfold py_eq_str in H. destruct (dict_get "origin" dl) as [[]|]; try done.
      by apply bool_decide_eq_true in H as ->.
    + right. exists r. split; [by apply list_elem_of_In|].
      unfold py_eq_str in H. destruct (dict_get "nonce" dl) as [[]|]; try done.
      by apply bool_decide_eq_true in H as ->.
  - intros [H|(r & Hr & H)].
    + left. rewrite H. cbn. by apply bool_decide_eq_true.
    + right. exists r. split; [by apply list_elem_of_In|].
      rewrite H. cbn. by apply bool_decide_eq_true.
Qed.

Lemma is_echo_false dl registry :
  dict_get "origin" dl <> Some (JStr "LOCAL_BOT") ->
  (forall r, r ∈ registry -> dict_get "nonce" dl <> Some (JStr (record_nonce r))) ->
  is_echo dl registry = false.
Proof.
  intros Ho Hn. apply not_true_is_false. intros [H|(r & Hr & H)]%is_echo_true.
  - done.
  - by apply (Hn r).
Qed.

(** The classification does not look at the local client's connection. *)
Lemma classify_item_client_ws item c w :
  classify_item item (set_client_ws c w)
  = (fst (classify_item item w), set_client_ws c (snd (classify_item item w))).
Proof.
  destruct (deathlink_record_pure item) as [r Hr].
  destruct r as [[dl|]|e].
  - rewrite (classify_item_guarded item dl w) by by rewrite Hr.
    rewrite (classify_item_guarded item dl (set_client_ws c w)) by by rewrite Hr.
    destruct (is_echo dl (recent_outbound w)) eqn:H.
    + rewrite !count_inbound_echo by done. done.
    + destruct (hash_key (source_of dl)) as [k|] eqn:Hk.
      * destruct (source_of dl) as [| | |s| |] eqn:Hs;
          try (rewrite (count_inbound_scalar dl w k) by (rewrite ?Hs; done);
               rewrite (count_inbound_scalar dl (set_client_ws c w) k)
                 by (rewrite ?Hs; done); done).
        rewrite (count_inbound_name dl w s) by done.
        rewrite (count_inbound_name dl (set_client_ws c w) s) by done. done.
      * rewrite !count_inbound_unhashable by done. done.
  - rewrite (classify_item_unguarded item w) by by rewrite Hr.
    rewrite (classify_item_unguarded item (set_client_ws c w)) by by rewrite Hr. done.
  - rewrite (classify_item_raised item e w) by by rewrite Hr.
    rewrite (classify_item_raised item e (set_client_ws c w)) by by rewrite Hr. done.
Qed.

(** The guard in the words of the wire protocol. *)
Lemma deathlink_record_bounce kv cmd tags dl w :
  dict_get "cmd" kv = Some (JStr cmd) -> cmd = "Bounced" \/ cmd = "Bounce" ->
  dict_get "tags" kv = Some (JArr tags) -> JStr "DeathLink" ∈ tags ->
  dict_get "data" kv = Some (JObj dl) ->
  deathlink_record (JObj kv) w = (Ok (Some dl), w).
Proof.
  intros Hcmd Hc Htags Hin Hdata.
  assert (Hb : cmd_is_bounce (Some (JStr cmd)) = true).
  { unfold cmd_is_bounce, py_eq_str. apply orb_true_iff.
    destruct Hc as [->| ->]; [left|right]; by apply bool_decide_eq_true. }
  assert (He : existsb (fun v => py_eq_str (Some v) "DeathLink") tags = true).
  { apply existsb_exists. exists (JStr "DeathLink").
    split; [by apply list_elem_of_In|]. by apply bool_decide_eq_true. }
  unfold deathlink_record, bind. rewrite Hcmd, Hb, Htags, Hdata.
  cbn [deathlink_in_tags]. unfold ret. by rewrite He.
Qed.

End RelayFacts.

(** ** The relay bridge *)

(** C1, as amended.  For every object of an inbound envelope that passes the
    guard of the loop (a dict whose [cmd] is ["Bounced"] or ["Bounce"], with
    ["DeathLink"] in its [tags] and a dict as [data]), in the world [w] in
    which the loop reaches it: if its [origin] is ["LOCAL_BOT"] or its
    [nonce] is that of a registry entry, [player_death_stats] is left as it
    is; otherwise, when [source] (["UNKNOWN"] if missing) is hashable,
    a string, an integer, a boolean or null, the count under [source] goes
    up by exactly 1, from 0 if absent; when [source] is a JSON array or
    object the update raises [TypeError] and [player_death_stats] is left
    as it is.  For a message whose envelope is this one object, that is the
    effect of the whole turn. *)
Theorem inbound_classification (item : json) (dl : list (string * json)) (w : world) :
  fst (deathlink_record item w) = Ok (Some dl) ->
  let stats := player_death_stats w in
  let stats' := player_death_stats (snd (classify_item item w)) in
  ((dict_get "origin" dl = Some (JStr "LOCAL_BOT")
    \/ exists r, r ∈ recent_outbound w
                 /\ dict_get "nonce" dl = Some (JStr (record_nonce r))) ->
   stats' = stats)
  /\ (dict_get "origin" dl <> Some (JStr "LOCAL_BOT") ->
      (forall r, r ∈ recent_outbound w ->
                 dict_get "nonce" dl <> Some (JStr (record_nonce r))) ->
      match hash_key (source_of dl) with
      | Some k => stats' = <[k := default 0 (stats !! k) + 1]> stats
      | None => stats' = stats /\ fst (classify_item item w) = Raise TypeError
      end)
  /\ (dict_get "source" dl = None -> hash_key (source_of dl) = Some (KStr "UNKNOWN"))
  /\ (forall loads message,
        ws_open (client_ws w) = true -> loads message = Some (JArr [item]) ->
        player_death_stats (snd (server_to_client_turn loads message w)) = stats').
Proof.
  intros Hguard stats stats'. subst stats stats'.
  rewrite (classify_item_guarded item dl w Hguard).
  split; [|split; [|split]].
  - intros Hecho%is_echo_true. by rewrite count_inbound_echo.
  - intros Ho Hn. pose proof (is_echo_false dl _ Ho Hn) as Hecho.
    destruct (hash_key (source_of dl)) as [k|] eqn:Hk.
    + by apply count_inbound_stats.
    + by rewrite count_inbound_unhashable.
  - intros Hs. unfold source_of. by rewrite Hs.
  - intros loads message Hopen Hloads.
    rewrite (turn_envelope loads message [item] w Hopen Hloads).
    rewrite try_except_pass_world. cbn [for_each]. unfold bind, forwarded.
    rewrite classify_item_client_ws, (classify_item_guarded item dl w Hguard).
    by destruct (fst (count_inbound dl w)) as [[]|].
Qed.

Lemma inbound_classification_witness :
  player_death_stats
    (snd (classify_item (bounced from_player) (in_session open_socket None)))
  = <[KStr "Player2" := 1]> ∅.
Proof.
  pose proof (inbound_classification (bounced from_player) from_player
                (in_session open_socket None) eq_refl) as (_ & Hcount & _).
  apply Hcount.
  - discriminate.
  - intros r Hr. by apply elem_of_nil in Hr.
Defined.

(** C1 as stated fails for a [source] that is a JSON array: the object
    passes the guard and is no echo, yet looking its source up raises, the
    handler swallows the error, and no count changes, for the object and
    for the message that carries it. *)
Lemma unhashable_source_not_counted :
  ~ object_counted (bounced unhashable_source) (in_session open_socket None)
  /\ player_death_stats
       (snd (server_to_client_turn (fun _ => Some (JArr [bounced unhashable_source]))
               "frame" (in_session open_socket None)))
     = player_death_stats (in_session open_socket None).
Proof.
  split; [|reflexivity].
  intros H. specialize (H unhashable_source eq_refl).
  destruct H as (k & Hk & _). discriminate Hk.
Qed.

(** C5, as amended.  For every message from the server, with the local
    client reachable: the message is sent to the client as received before
    the inspection starts and whatever it makes of the message; the turn
    ends normally, every error of the inspection being swallowed, so the
    loop goes on to the next message.  When the message is no JSON, or is
    JSON but no list, or is a list that holds no object, the world after the
    turn is the world after the forwarding: [player_death_stats], the
    trigger file and the banner tasks are as before.  When it is a list,
    the world after the turn is the one the scan of its objects left,
    whether the scan came to its end or raised on the way: what an object
    changed before an error stays changed. *)
Theorem forward_then_inspect
    (loads : string -> option json) (message : string) (w : world) :
  ws_open (client_ws w) = true ->
  let w' := snd (server_to_client_turn loads message w) in
  fst (server_to_client_turn loads message w) = Ok tt
  /\ server_to_client_turn loads message w
     = try_except (inspect loads message) (fun _ => ret tt) (forwarded message w)
  /\ ws_sent (client_ws w') = ws_sent (client_ws w) ++ [Relayed message]
  /\ (forall rest, server_to_client loads (message :: rest) w
                   = server_to_client loads rest w')
  /\ (loads message = None ->
        w' = forwarded message w
        /\ player_death_stats w' = player_death_stats w
        /\ trigger_file w' = trigger_file w
        /\ banner_tasks w' = banner_tasks w)
  /\ (forall data, loads message = Some data ->
        (forall items, data <> JArr items) ->
        w' = forwarded message w
        /\ player_death_stats w' = player_death_stats w
        /\ trigger_file w' = trigger_file w
        /\ banner_tasks w' = banner_tasks w)
  /\ (forall items, loads message = Some (JArr items) ->
        Forall (fun item => forall kv, item <> JObj kv) items ->
        w' = forwarded message w
        /\ player_death_stats w' = player_death_stats w
        /\ trigger_file w' = trigger_file w
        /\ banner_tasks w' = banner_tasks w)
  /\ (forall items, loads message = Some (JArr items) ->
        w' = snd (for_each classify_item items (forwarded message w))).
Proof.
  intros Hopen w'. subst w'. rewrite (turn_open loads message w Hopen).
  split; [apply try_except_pass_ok|]. split; [done|].
  split; [|split; [|split; [|split; [|split]]]].
  - rewrite try_except_pass_world.
    destruct (inspect_frame loads message (forwarded message w)) as (_&_&_&_&->&_).
    done.
  - intros rest. unfold server_to_client. cbn [for_each]. unfold bind at 1.
    rewrite (turn_open loads message w Hopen).
    pose proof (try_except_pass_ok (inspect loads message) (forwarded message w)) as Hok.
    destruct (try_except _ _ _) as [r w1]. cbn [fst] in Hok. by subst r.
  - intros Hbad. unfold try_except. rewrite inspect_malformed by done. done.
  - intros data Hdata Hshape. unfold try_except, inspect, json_loads, bind.
    rewrite Hdata. cbn. destruct data; try done. by destruct (Hshape items).
  - intros items Hdata Hnone. rewrite try_except_pass_world.
    unfold inspect, json_loads, bind. rewrite Hdata. cbn. clear Hdata.
    assert (Hscan : forall w0, for_each classify_item items w0 = (Ok tt, w0)).
    { induction Hnone as [|item items Hitem _ IH]; intros w0; [done|].
      cbn [for_each]. unfold bind.
      rewrite (classify_item_unguarded item w0); [apply IH|].
      destruct item as [| | | | |kv]; try done. by destruct (Hitem kv). }
    by rewrite Hscan.
  - intros items Hdata. rewrite try_except_pass_world.
    unfold inspect, json_loads, bind. by rewrite Hdata.
Qed.

Lemma forward_then_inspect_witness :
  ws_sent (client_ws (snd (server_to_client_turn (fun _ => None) "not json"
                             (in_session open_socket None))))
  = [Relayed "not json"].
Proof.
  apply (forward_then_inspect (fun _ => None) "not json" (in_session open_socket None)
           eq_refl).
Defined.

(** C5 as stated fails for a message that is a list but not a well-formed
    envelope: a bounce whose [source] is [null] is counted under [None],
    then writing it to the trigger file raises; the handler swallows the
    error and the turn ends normally, with [player_death_stats] changed. *)
Lemma swallowed_error_after_count :
  ~ swallowed_error_changes_nothing (fun _ => Some (JArr [bounced null_source]))
      "frame" (in_session open_socket None).
Proof.
  intros Hclaim. destruct (Hclaim TypeError eq_refl) as (_ & Hstats & _).
  apply (f_equal (fun stats => stats !! KNone)) in Hstats.
  vm_compute in Hstats. discriminate.
Qed.

Section RegistryFacts.

Variable loads : string -> option json.

Implicit Types (w : world) (env : environment) (name : string).

Lemma send_registry_bound env name w :
  (length (recent_outbound w) <= maxlen)%nat ->
  (length (recent_outbound (snd (send_deathlink env name w))) <= maxlen)%nat.
Proof.
  intros Hb. destruct (session_inactive w) eqn:Hact.
  - by rewrite send_inactive.
  - destruct (session_active_inv w Hact) as (_ & ws & Hws).
    destruct (ws_open ws) eqn:Hopen.
    + rewrite (send_active_open env name w ws) by done. cbn.
      by apply length_deque_append.
    + by rewrite (send_active_closed env name w ws).
Qed.

Lemma dequeue_registry w : recent_outbound (snd (dequeue_deathlink w)) = recent_outbound w.
Proof.
  destruct (read_queue w) as [|x q] eqn:Hq.
  - by rewrite dequeue_empty.
  - by rewrite (dequeue_cons w x q Hq).
Qed.

Lemma dispatcher_registry_bound env w :
  (length (recent_outbound w) <= maxlen)%nat ->
  (length (recent_outbound (snd (dispatcher_turn env w))) <= maxlen)%nat.
Proof.
  intros Hb. destruct (read_queue w) as [|x q] eqn:Hq.
  - by rewrite dispatcher_turn_empty.
  - rewrite (dispatcher_turn_cons env w x q Hq).
    destruct (client_connected w); cbn [negb]; [|done].
    unfold bind.
    pose proof (send_registry_bound env x (set_queue_file (Some (join nl q)) w) Hb) as Hs.
    pose proof (send_returns_none env x (set_queue_file (Some (join nl q)) w)) as Hr.
    destruct (send_deathlink env x _) as [r w1]. cbn [fst snd] in *. subst r.
    by rewrite randint_clamped.
Qed.

Lemma turn_registry message w :
  recent_outbound (snd (server_to_client_turn loads message w)) = recent_outbound w.
Proof.
  destruct (ws_open (client_ws w)) eqn:Hopen.
  - rewrite turn_open by done. rewrite try_except_pass_world.
    by destruct (inspect_frame loads message (forwarded message w)) as (_&->&_).
  - by rewrite turn_closed.
Qed.

Lemma outbound_registry message w :
  recent_outbound (snd (client_to_server_turn message w)) = recent_outbound w.
Proof.
  unfold client_to_server_turn, bind, get.
  destruct (archipelago_ws w) as [ws|]; [|done]. by destruct (ws_open ws).
Qed.

(** No step of any task lets the registry grow past its capacity. *)
Lemma step_registry_bound a w :
  (length (recent_outbound w) <= maxlen)%nat ->
  (length (recent_outbound (step loads a w)) <= maxlen)%nat.
Proof.
  intros Hb. destruct a; cbn [step].
  - done.
  - done.
  - by rewrite turn_registry.
  - by rewrite outbound_registry.
  - by apply send_registry_bound.
  - done.
  - by apply dispatcher_registry_bound.
  - done.
Qed.

Lemma run_registry_bound actions : forall w,
  (length (recent_outbound w) <= maxlen)%nat ->
  (length (recent_outbound (run loads actions w)) <= maxlen)%nat.
Proof.
  induction actions as [|a actions IH]; intros w Hb; [done|].
  apply IH. by apply step_registry_bound.
Qed.

Lemma is_our_nonce_false n registry :
  n ∉ map record_nonce registry -> is_our_nonce (Some (JStr n)) registry = false.
Proof.
  intros Hn. apply not_true_is_false. unfold is_our_nonce.
  intros (r & Hr & Heq)%existsb_exists. apply Hn.
  cbn in Heq. apply bool_decide_eq_true in Heq as ->.
  apply list_elem_of_In, in_map, Hr.
Qed.

End RegistryFacts.

(** ** The outbound dedup registry *)

(** C7.  The registry starts empty and no run of the engine, so no sequence
    of [send_deathlink] calls, leaves more than 100 records in it.  A send
    that goes through on a full registry drops the oldest record and puts
    its own last; with nonces that do not repeat, as [uuid4] gives them,
    the dropped nonce is no longer found by the membership test of the
    inbound classification, so a later echo of it is no longer recognised. *)
Theorem registry_bounded_and_evicting
    (loads : string -> option json) (env : environment) (name : string)
    (w : world) (ws : websocket) (oldest : outbound_record)
    (rest : list outbound_record) :
  recent_outbound w = oldest :: rest ->
  length (oldest :: rest) = maxlen ->
  session_inactive w = false -> archipelago_ws w = Some ws -> ws_open ws = true ->
  NoDup (map record_nonce (oldest :: rest) ++ [env_uuid4 env]) ->
  let w' := snd (send_deathlink env name w) in
  (forall actions cfg queue,
     (length (recent_outbound (run loads actions (boot cfg queue))) <= 100)%nat)
  /\ (forall actions, (length (recent_outbound (run loads actions w)) <= 100)%nat)
  /\ recent_outbound w' = rest ++ [(env_uuid4 env, name, env_time env)]
  /\ length (recent_outbound w') = 100%nat
  /\ is_our_nonce (Some (JStr (record_nonce oldest))) (recent_outbound w) = true
  /\ is_our_nonce (Some (JStr (record_nonce oldest))) (recent_outbound w') = false
  /\ is_echo [("origin", JStr "player"); ("nonce", JStr (record_nonce oldest))]
             (recent_outbound w') = false.
Proof.
  intros Hreg Hfull Hact Hws Hopen Hfresh w'. subst w'.
  rewrite (send_active_open env name w ws) by done. cbn [snd].
  change (recent_outbound (set_trigger_file _ _))
    with (deque_append (env_uuid4 env, name, env_time env) (recent_outbound w)).
  rewrite Hreg, (deque_append_full _ oldest rest Hfull).
  assert (Hgone : record_nonce oldest
                  ∉ map record_nonce (rest ++ [(env_uuid4 env, name, env_time env)])).
  { rewrite map_app. cbn [map app] in *. by apply NoDup_cons in Hfresh as [? _]. }
  split; [|split; [|split; [|split; [|split; [|split]]]]].
  - intros actions cfg queue. apply run_registry_bound. cbn. unfold maxlen. lia.
  - intros actions. apply run_registry_bound. rewrite Hreg, Hfull. done.
  - done.
  - rewrite length_app. cbn [length] in *. unfold maxlen in Hfull. lia.
  - unfold is_our_nonce. cbn [existsb py_eq_str]. by rewrite bool_decide_eq_true_2.
  - by apply is_our_nonce_false.
  - unfold is_echo. cbn [dict_get]. cbn. by apply is_our_nonce_false.
Qed.

Lemma registry_bounded_and_evicting_witness :
  is_our_nonce (Some (JStr (env_uuid4 (burst_env 0))))
    (recent_outbound (snd (send_deathlink (burst_env 100) "A" full_registry)))
  = false.
Proof.
  eapply (registry_bounded_and_evicting (fun _ => None) (burst_env 100) "A"
            full_registry _ (burst_record 0) (map burst_record (seq 1 99))).
  - vm_compute. reflexivity.
  - vm_compute. reflexivity.
  - vm_compute. reflexivity.
  - vm_compute. reflexivity.
  - reflexivity.
  - match goal with |- ?P => apply (bool_decide_eq_true_1 P) end.
    vm_compute. reflexivity.
Defined.

Section EnqueueFacts.

Lemma enqueue_read_back (name : string) (count : Z) (w : world) :
  queue_safe name = true ->
  read_queue (snd (enqueue_deathlinks name count w))
  = read_queue w ++ replicate (Z.to_nat count) name.
Proof.
  intros Hname. rewrite enqueue_spec. cbn [snd].
  replace (Z.to_nat (Z.max 0 count)) with (Z.to_nat count) by lia.
  apply read_queue_rewritten, Forall_app.
  split; [apply read_queue_safe|by apply replicate_safe].
Qed.

End EnqueueFacts.

(** ** More on the durable queue *)

(** X1.  Whatever the queue file holds, an entry [dequeue_deathlink]
    returns is the first one read, it is not empty, carries no outer
    whitespace and no line break; the count returned with it is the number
    of entries left, and the file then holds exactly those, one per line. *)
Theorem dequeue_returns_clean_head (w : world) (name : string) (remaining : Z) :
  fst (dequeue_deathlink w) = Ok (Some name, remaining) ->
  let w' := snd (dequeue_deathlink w) in
  name <> "" /\ strip name = name /\ no_linebreak name = true
  /\ read_queue w = name :: read_queue w'
  /\ remaining = Z.of_nat (length (read_queue w'))
  /\ queue_file w' = Some (join nl (read_queue w')).
Proof.
  intros (q & Hq & ->)%dequeue_some_inv w'. subst w'.
  rewrite (dequeue_cons w name q Hq). cbn [snd].
  pose proof (read_queue_safe w) as Hsafe. rewrite Hq in Hsafe.
  inversion Hsafe as [|? ? Hname Hrest]; subst.
  rewrite (read_queue_rewritten q w Hrest).
  apply queue_safe_spec in Hname as (? & ? & ? & ?).
  unfold no_linebreak. repeat split; try done. by apply andb_true_iff.
Qed.

Lemma dequeue_returns_clean_head_witness :
  read_queue (boot sample_config (Some sample_queue))
  = "A" :: read_queue (snd (dequeue_deathlink (boot sample_config (Some sample_queue)))).
Proof.
  apply (dequeue_returns_clean_head (boot sample_config (Some sample_queue)) "A" 2 eq_refl).
Defined.

(** X2.  A queue file that holds nothing but whitespace and line breaks is
    an empty queue: [dequeue_deathlink] returns [(None, 0)] and leaves the
    file, like everything else, as it is. *)
Theorem dequeue_blank_file (w : world) (text : string) :
  queue_file w = Some text -> strip text = "" ->
  dequeue_deathlink w = (Ok (None, 0), w).
Proof.
  intros Hfile Hblank. apply dequeue_empty.
  unfold read_queue. rewrite Hfile. by apply stripped_lines_blank.
Qed.

Lemma dequeue_blank_file_witness :
  dequeue_deathlink (boot sample_config (Some (" " +:+ nl +:+ nl)))
  = (Ok (None, 0), boot sample_config (Some (" " +:+ nl +:+ nl))).
Proof.
  apply (dequeue_blank_file _ (" " +:+ nl +:+ nl)); reflexivity.
Defined.

(** X3.  For a name that is not empty, equals its own [strip()] and holds no
    line break, [enqueue_deathlinks(name, count)] leaves a file from which
    the old entries are read back followed by [max(0, count)] copies of the
    name; the length it returns is the length read back. *)
Theorem enqueue_appends_copies (name : string) (count : Z) (w : world) :
  queue_safe name = true ->
  let w' := snd (enqueue_deathlinks name count w) in
  read_queue w' = read_queue w ++ replicate (Z.to_nat count) name
  /\ fst (enqueue_deathlinks name count w) = Ok (Z.of_nat (length (read_queue w'))).
Proof.
  intros Hname w'. subst w'. split; [by apply enqueue_read_back|].
  rewrite enqueue_read_back by done. rewrite enqueue_spec. cbn [fst].
  replace (Z.to_nat (Z.max 0 count)) with (Z.to_nat count) by lia. done.
Qed.

Lemma enqueue_appends_copies_witness :
  read_queue (snd (enqueue_deathlinks "Bob" 2 (boot sample_config (Some sample_queue))))
  = read_queue (boot sample_config (Some sample_queue)) ++ ["Bob"; "Bob"].
Proof.
  apply (enqueue_appends_copies "Bob" 2 (boot sample_config (Some sample_queue)) eq_refl).
Defined.

(** X4.  Two enqueues of the same such name, with counts that are not
    negative, leave the world one enqueue of the sum leaves. *)
Theorem enqueue_twice (name : string) (a b : Z) (w : world) :
  queue_safe name = true -> 0 <= a -> 0 <= b ->
  snd (enqueue_deathlinks name b (snd (enqueue_deathlinks name a w)))
  = snd (enqueue_deathlinks name (a + b) w).
Proof.
  intros Hname Ha Hb.
  pose proof (enqueue_read_back name a w Hname) as Hread.
  rewrite (enqueue_spec name b), Hread.
  rewrite !enqueue_spec. cbn [snd].
  replace (Z.to_nat (Z.max 0 a)) with (Z.to_nat a) by lia.
  replace (Z.to_nat (Z.max 0 b)) with (Z.to_nat b) by lia.
  replace (Z.to_nat (Z.max 0 (a + b))) with (Z.to_nat a + Z.to_nat b)%nat by lia.
  rewrite replicate_add, app_assoc. reflexivity.
Qed.

Lemma enqueue_twice_witness :
  snd (enqueue_deathlinks "Bob" 3 (snd (enqueue_deathlinks "Bob" 2 (boot sample_config None))))
  = snd (enqueue_deathlinks "Bob" (2 + 3) (boot sample_config None)).
Proof. apply enqueue_twice; [reflexivity|lia|lia]. Defined.

Section DispatcherRuns.

Implicit Types (w : world) (env : environment) (name : string).

Lemma send_world_cases env name w :
  (session_inactive w = true /\ send_deathlink env name w = (Ok PyNone, w))
  \/ (exists ws, session_inactive w = false /\ archipelago_ws w = Some ws
        /\ ws_open ws = false
        /\ send_deathlink env name w
           = (Ok PyNone, set_deathlink_stats (incremented name (deathlink_stats w)) w))
  \/ (exists ws, session_inactive w = false /\ archipelago_ws w = Some ws
        /\ ws_open ws = true
        /\ send_deathlink env name w
           = (Ok PyNone,
              set_trigger_file (Some EmptyString)
                (set_trigger_file (Some name)
                   (set_recent_outbound
                      (deque_append (env_uuid4 env, name, env_time env) (recent_outbound w))
                      (set_archipelago_ws
                         (Some {| ws_open := true;
                                  ws_sent := ws_sent ws ++ [Dumps [make_payload env name]] |})
                         (set_deathlink_stats (incremented name (deathlink_stats w)) w)))))).
Proof.
  destruct (session_inactive w) eqn:Hact.
  - left. split; [done|]. by apply send_inactive.
  - destruct (session_active_inv w Hact) as (_ & ws & Hws).
    destruct (ws_open ws) eqn:Hopen.
    + right. right. exists ws. repeat split; try done. by apply (send_active_open env name w ws).
    + right. left. exists ws. repeat split; try done. by apply (send_active_closed env name w ws).
Qed.

Lemma send_keeps_queue env name w :
  queue_file (snd (send_deathlink env name w)) = queue_file w.
Proof.
  destruct (send_world_cases env name w)
    as [[_ ->]|[(ws & _ & _ & _ & ->)|(ws & _ & _ & _ & ->)]]; done.
Qed.

Lemma active_session w ws :
  client_connected w = true -> archipelago_ws w = Some ws -> session_inactive w = false.
Proof.
  intros Hcc Hws. unfold session_inactive. rewrite Hcc, Hws. reflexivity.
Qed.

End DispatcherRuns.

(** ** More on the dispatcher *)

(** X5.  In every state a turn of the dispatcher ends normally: no
    exception leaves it.  It takes the first entry off the queue if there
    is one; its pause is 5 seconds when the queue is empty, in which case
    nothing changes at all, or when no client is connected, and otherwise,
    with a generator that draws within the range asked for, a number of
    seconds between the configured minimum and the larger of minimum and
    maximum. *)
Theorem dispatcher_turn_total (env : environment) (w : world) :
  randint_in_range env ->
  exists pause,
    fst (dispatcher_turn env w) = Ok pause
    /\ read_queue (snd (dispatcher_turn env w)) = tail (read_queue w)
    /\ (read_queue w = [] -> pause = 5 /\ snd (dispatcher_turn env w) = w)
    /\ (client_connected w = false -> pause = 5)
    /\ (read_queue w <> [] -> client_connected w = true ->
          min_seconds w <= pause <= Z.max (min_seconds w) (max_seconds w)).
Proof.
  intros Hrand. destruct (read_queue w) as [|name q] eqn:Hq.
  - rewrite dispatcher_turn_empty by done. exists 5. cbn [fst snd].
    rewrite Hq. repeat split; done.
  - rewrite (dispatcher_turn_cons env w name q Hq).
    set (w1 := set_queue_file (Some (join nl q)) w).
    assert (Hq1 : read_queue w1 = q).
    { apply read_queue_rewritten. pose proof (read_queue_safe w) as Hsafe.
      rewrite Hq in Hsafe. by inversion Hsafe. }
    destruct (client_connected w) eqn:Hcc; cbn [negb].
    + unfold bind.
      pose proof (send_returns_none env name w1) as Hr.
      pose proof (send_keeps_queue env name w1) as Hfile.
      destruct (send_deathlink env name w1) as [r w2]. cbn [fst snd] in Hr, Hfile. subst r.
      rewrite randint_clamped. unfold ret. cbn [fst snd].
      eexists. split; [done|]. split.
      { unfold read_queue in *. by rewrite Hfile. }
      split; [done|]. split; [done|]. intros _ _.
      destruct (Z.ltb_spec (max_seconds w) (min_seconds w)) as [Hlt|Hge].
      * pose proof (Hrand (min_seconds w) (min_seconds w)). lia.
      * pose proof (Hrand (min_seconds w) (max_seconds w) Hge). lia.
    + exists 5. cbn [fst snd]. rewrite Hq1. repeat split; done.
Qed.

Lemma dispatcher_turn_total_witness :
  exists pause,
    fst (dispatcher_turn sample_env (boot sample_config None)) = Ok pause
    /\ pause = 5.
Proof.
  destruct (dispatcher_turn_total sample_env (boot sample_config None))
    as (pause & Hturn & _ & Hempty & _).
  - intros a b Hab. cbn. lia.
  - exists pause. split; [exact Hturn|]. apply Hempty. reflexivity.
Defined.

(** X6.  With a client connected and an upstream connection that stays
    open, as many turns as there are entries, or fewer, send one bounce per
    turn, for the entries in the order the queue holds them, each with the
    nonce of its turn; the entries sent are gone from the queue, the others
    are still there, and no turn raises. *)
Theorem dispatcher_sends_in_queue_order (envs : list environment) :
  forall (w : world) (ws : websocket),
  client_connected w = true -> archipelago_ws w = Some ws -> ws_open ws = true ->
  (length envs <= length (read_queue w))%nat ->
  let w' := snd (staged_deathlink_dispatcher envs w) in
  upstream_sent w'
  = ws_sent ws ++ zip_with (fun env name => Dumps [make_payload env name])
                           envs (read_queue w)
  /\ read_queue w' = drop (length envs) (read_queue w)
  /\ exists pauses, fst (staged_deathlink_dispatcher envs w) = Ok pauses
                    /\ length pauses = length envs.
Proof.
  induction envs as [|env envs IH]; intros w ws Hcc Hws Hopen Hlen w'; subst w'.
  - cbn. unfold upstream_sent. rewrite Hws, app_nil_r.
    split; [done|]. split; [done|]. by exists [].
  - destruct (read_queue w) as [|name q] eqn:Hq; [cbn in Hlen; lia|].
    cbn [length] in Hlen.
    set (w1 := set_queue_file (Some (join nl q)) w).
    assert (Hq1 : read_queue w1 = q).
    { apply read_queue_rewritten. pose proof (read_queue_safe w) as Hsafe.
      rewrite Hq in Hsafe. by inversion Hsafe. }
    assert (Hact : session_inactive w1 = false) by by apply (active_session w1 ws).
    set (ws2 := {| ws_open := true;
                   ws_sent := ws_sent ws ++ [Dumps [make_payload env name]] |}).
    pose proof (send_active_open env name w1 ws Hact Hws Hopen) as Hsend.
    fold ws2 in Hsend.
    set (w2 := set_trigger_file (Some EmptyString) _) in Hsend.
    assert (Hturn : exists pause, dispatcher_turn env w = (Ok pause, w2)).
    { rewrite (dispatcher_turn_cons env w name q Hq), Hcc. cbn [negb].
      fold w1. unfold bind. rewrite Hsend, randint_clamped. unfold ret. eauto. }
    destruct Hturn as (pause & Hturn).
    destruct (IH w2 ws2) as (Hsent & Hrest & pauses & Hrun & Hpauses);
      [done|done|done|change (read_queue w2) with (read_queue w1); rewrite Hq1; lia|].
    change (read_queue w2) with (read_queue w1) in Hsent, Hrest.
    rewrite Hq1 in Hsent, Hrest.
    assert (Hall : staged_deathlink_dispatcher (env :: envs) w
                   = (Ok (pause :: pauses), snd (staged_deathlink_dispatcher envs w2))).
    { cbn [staged_deathlink_dispatcher]. unfold bind at 1. rewrite Hturn.
      unfold bind. destruct (staged_deathlink_dispatcher envs w2) as [r w3].
      cbn [fst snd] in *. by subst r. }
    rewrite Hall. cbn [fst snd].
    split; [|split].
    + rewrite Hsent. cbn [zip_with ws_sent ws2]. by rewrite <- app_assoc.
    + cbn [length drop]. exact Hrest.
    + exists (pause :: pauses). split; [done|]. cbn [length]. by rewrite Hpauses.
Qed.

Lemma dispatcher_sends_in_queue_order_witness :
  read_queue (snd (staged_deathlink_dispatcher [burst_env 0; burst_env 1]
                     (in_session open_socket (Some sample_queue))))
  = ["B"].
Proof.
  apply (dispatcher_sends_in_queue_order [burst_env 0; burst_env 1]
           (in_session open_socket (Some sample_queue)) open_socket
           eq_refl eq_refl eq_refl).
  vm_compute. lia.
Defined.

Section InboundFacts.

Variable loads : string -> option json.

Implicit Types (w : world) (item : json) (dl : list (string * json)).

Lemma outbound_state_kept_refl w : outbound_state_kept w w.
Proof. by repeat split. Qed.

Lemma outbound_state_kept_trans w1 w2 w3 :
  outbound_state_kept w1 w2 -> outbound_state_kept w2 w3 -> outbound_state_kept w1 w3.
Proof.
  unfold outbound_state_kept. intros (?&?&?&?&?&?) (?&?&?&?&?&?).
  repeat split; congruence.
Qed.

Lemma turn_keeps_outbound_state message w :
  outbound_state_kept w (snd (server_to_client_turn loads message w)).
Proof.
  destruct (ws_open (client_ws w)) eqn:Hopen.
  - rewrite turn_open by done. rewrite try_except_pass_world.
    destruct (inspect_frame loads message (forwarded message w))
      as (H1 & H2 & H3 & H4 & _ & H6 & H7).
    by repeat split.
  - rewrite turn_closed by done. apply outbound_state_kept_refl.
Qed.

Lemma for_each_kept {A} (body : A -> M unit) (xs : list A) :
  (forall x w, outbound_state_kept w (snd (body x w))) ->
  forall w, outbound_state_kept w (snd (for_each body xs w)).
Proof.
  intros Hbody. induction xs as [|x xs IH]; intros w; [apply outbound_state_kept_refl|].
  cbn [for_each]. unfold bind. pose proof (Hbody x w) as Hx.
  destruct (body x w) as [[[]|e] w1]; cbn [snd] in *; [|done].
  eapply outbound_state_kept_trans; [exact Hx|apply IH].
Qed.

End InboundFacts.

(** ** More on the relay bridge *)

(** X7.  Whatever the server sends, and however many messages, the
    server-to-client loop never touches the contributor counts, the
    registry of sent nonces, the queue file, the session globals or the
    configuration: inbound traffic can only reach [player_death_stats], the
    banner and the transcript of the local client. *)
Theorem inbound_never_touches_outbound_state
    (loads : string -> option json) (messages : list string) (w : world) :
  let w' := snd (server_to_client loads messages w) in
  deathlink_stats w' = deathlink_stats w
  /\ recent_outbound w' = recent_outbound w
  /\ client_connected w' = client_connected w
  /\ archipelago_ws w' = archipelago_ws w
  /\ queue_file w' = queue_file w
  /\ config w' = config w.
Proof.
  apply (for_each_kept (server_to_client_turn loads) messages).
  apply turn_keeps_outbound_state.
Qed.

(** X8.  An object whose [cmd] is a bounce and whose [tags] is [null], a
    boolean or a number makes the membership test raise; the handler
    swallows the error and with it the rest of the envelope: the world after
    the turn is the world in which the loop reached that object, and the
    objects behind it, genuine deaths included, are never looked at. *)
Theorem bad_tags_end_the_scan
    (loads : string -> option json) (message : string) (w w1 : world)
    (pre post : list json) (kv : list (string * json)) (tags : json) :
  ws_open (client_ws w) = true ->
  loads message = Some (JArr (pre ++ JObj kv :: post)) ->
  for_each classify_item pre (forwarded message w) = (Ok tt, w1) ->
  cmd_is_bounce (dict_get "cmd" kv) = true ->
  dict_get "tags" kv = Some tags ->
  hash_key tags <> None -> (forall s, tags <> JStr s) ->
  server_to_client_turn loads message w = (Ok tt, w1).
Proof.
  intros Hopen Hloads Hpre Hcmd Htags Hscalar Hnostr.
  rewrite (turn_envelope loads message _ w Hopen Hloads).
  unfold try_except. rewrite (for_each_app _ _ _ _ _ Hpre).
  cbn [for_each]. unfold bind at 1.
  assert (Hitem : classify_item (JObj kv) w1 = (Raise TypeError, w1)).
  { apply classify_item_raised. unfold deathlink_record, bind.
    rewrite Hcmd, Htags. destruct tags; try done. by destruct (Hnostr s). }
  by rewrite Hitem.
Qed.

Lemma bad_tags_end_the_scan_witness :
  server_to_client_turn (fun _ => Some (JArr [bad_tags; bounced from_player]))
    "frame" (in_session open_socket None)
  = (Ok tt, forwarded "frame" (in_session open_socket None)).
Proof.
  apply (bad_tags_end_the_scan _ "frame" (in_session open_socket None) _
           [] [bounced from_player] [("cmd", JStr "Bounced"); ("tags", JInt 5)] (JInt 5));
    try reflexivity; try discriminate.
Defined.

(** X9.  An inbound death whose [source] is no string ends the scan of
    its envelope with a [TypeError] and schedules no banner clear.  When
    the source is hashable ([null], a boolean, a number) the death has been
    counted by then and the trigger file, opened for the write that raises,
    is left empty; when it is a JSON array or object nothing has changed. *)
Theorem non_string_source_ends_the_scan
    (item : json) (dl : list (string * json)) (w : world) :
  fst (deathlink_record item w) = Ok (Some dl) ->
  is_echo dl (recent_outbound w) = false ->
  (forall s, source_of dl <> JStr s) ->
  let w' := snd (classify_item item w) in
  fst (classify_item item w) = Raise TypeError
  /\ banner_tasks w' = banner_tasks w
  /\ match hash_key (source_of dl) with
     | Some k =>
         player_death_stats w'
         = <[k := default 0 (player_death_stats w !! k) + 1]> (player_death_stats w)
         /\ player_death_stats w' <> player_death_stats w
         /\ trigger_file w' = Some EmptyString
     | None => w' = w
     end.
Proof.
  intros Hguard Hecho Hnostr w'. subst w'.
  rewrite (classify_item_guarded item dl w Hguard).
  destruct (hash_key (source_of dl)) as [k|] eqn:Hk.
  - rewrite (count_inbound_scalar dl w k) by done. cbn [fst snd].
    split; [done|]. split; [done|]. split; [done|]. split; [|done].
    intros Heq. apply (f_equal (fun stats => stats !! k)) in Heq.
    cbn in Heq. rewrite lookup_insert_eq in Heq.
    destruct (player_death_stats w !! k) as [v|]; [|done].
    cbn in Heq. injection Heq. lia.
  - rewrite count_inbound_unhashable by done. done.
Qed.

Lemma non_string_source_ends_the_scan_witness :
  fst (classify_item (bounced null_source) (in_session open_socket None))
  = Raise TypeError.
Proof.
  apply (non_string_source_ends_the_scan (bounced null_source) null_source
           (in_session open_socket None) eq_refl eq_refl).
  intros s. discriminate.
Defined.

(** X10.  The send path and the relay agree on the nonce: right after a
    send that went through, every bounce that carries the nonce of that
    send, whatever its origin and source, is taken for an echo and changes
    nothing. *)
Theorem own_send_is_recognised
    (env : environment) (name : string) (w : world) (ws : websocket)
    (item : json) (dl : list (string * json)) :
  session_inactive w = false -> archipelago_ws w = Some ws -> ws_open ws = true ->
  let w' := snd (send_deathlink env name w) in
  fst (deathlink_record item w') = Ok (Some dl) ->
  dict_get "nonce" dl = Some (JStr (env_uuid4 env)) ->
  classify_item item w' = (Ok tt, w').
Proof.
  intros Hact Hws Hopen w' Hguard Hnonce.
  rewrite (classify_item_guarded item dl w' Hguard).
  apply count_inbound_echo, is_echo_true. right.
  exists (env_uuid4 env, name, env_time env). split; [|done].
  subst w'. rewrite (send_active_open env name w ws) by done. cbn [snd].
  change (recent_outbound (set_trigger_file _ _))
    with (deque_append (env_uuid4 env, name, env_time env) (recent_outbound w)).
  pose proof (last_deque_append (env_uuid4 env, name, env_time env) (recent_outbound w)) as Hlast.
  apply last_Some in Hlast as (l' & ->). apply elem_of_app. right. by left.
Qed.

Lemma own_send_is_recognised_witness :
  classify_item (bounced [("origin", JStr "elsewhere"); ("nonce", JStr "n-1")])
    (snd (send_deathlink sample_env "A" (in_session open_socket None)))
  = (Ok tt, snd (send_deathlink sample_env "A" (in_session open_socket None))).
Proof.
  apply (own_send_is_recognised sample_env "A" (in_session open_socket None) open_socket
           (bounced [("origin", JStr "elsewhere"); ("nonce", JStr "n-1")])
           [("origin", JStr "elsewhere"); ("nonce", JStr "n-1")]);
    reflexivity.
Defined.

Section CountFacts.

Context `{Countable K}.

Implicit Types (m : gmap K Z).

Lemma grown_refl m : grown m m.
Proof. split; [intros k; lia|done]. Qed.

Lemma grown_trans m1 m2 m3 : grown m1 m2 -> grown m2 m3 -> grown m1 m3.
Proof.
  intros [Hg1 Hp1] [Hg2 Hp2]. split; [|auto].
  intros k. specialize (Hg1 k). specialize (Hg2 k). lia.
Qed.

Lemma grown_eq m m' : m' = m -> grown m m'.
Proof. intros ->. apply grown_refl. Qed.

(** [stats[k] = stats.get(k, 0) + 1] *)
Lemma grown_incr m k : grown m (<[k := default 0 (m !! k) + 1]> m).
Proof.
  split.
  - intros k'. destruct (decide (k = k')) as [->|Hne].
    + rewrite lookup_insert_eq. cbn. lia.
    + rewrite lookup_insert_ne by done. lia.
  - intros Hpos k' v. destruct (decide (k = k')) as [->|Hne].
    + rewrite lookup_insert_eq. intros [= <-].
      destruct (m !! k') as [v0|] eqn:E; cbn; [|lia].
      specialize (Hpos k' v0 E). lia.
    + rewrite lookup_insert_ne by done. apply Hpos.
Qed.

End CountFacts.

Section StepFacts.

Variable loads : string -> option json.

Implicit Types (w : world) (env : environment) (name : string).

Lemma count_inbound_grown dl w :
  grown (player_death_stats w) (player_death_stats (snd (count_inbound dl w))).
Proof.
  destruct (is_echo dl (recent_outbound w)) eqn:Hecho.
  - rewrite count_inbound_echo by done. apply grown_refl.
  - destruct (hash_key (source_of dl)) as [k|] eqn:Hk.
    + rewrite (count_inbound_stats dl w k) by done. apply grown_incr.
    + rewrite count_inbound_unhashable by done. apply grown_refl.
Qed.

Lemma classify_item_grown item w :
  grown (player_death_stats w) (player_death_stats (snd (classify_item item w))).
Proof.
  destruct (fst (deathlink_record item w)) as [[dl|]|e] eqn:Hg.
  - rewrite (classify_item_guarded item dl w Hg). apply count_inbound_grown.
  - rewrite (classify_item_unguarded item w Hg). apply grown_refl.
  - rewrite (classify_item_raised item e w Hg). apply grown_refl.
Qed.

Lemma scan_grown items : forall w,
  grown (player_death_stats w) (player_death_stats (snd (for_each classify_item items w))).
Proof.
  induction items as [|item items IH]; intros w; [apply grown_refl|].
  cbn [for_each]. unfold bind. pose proof (classify_item_grown item w) as Hitem.
  destruct (classify_item item w) as [[[]|e] w1]; cbn [snd] in *; [|done].
  eapply grown_trans; [exact Hitem|apply IH].
Qed.

Lemma turn_grown message w :
  grown (player_death_stats w)
        (player_death_stats (snd (server_to_client_turn loads message w))).
Proof.
  destruct (ws_open (client_ws w)) eqn:Hopen.
  - rewrite turn_open by done. rewrite try_except_pass_world.
    unfold inspect, json_loads, bind.
    destruct (loads message) as [[]|]; try apply grown_refl.
    apply (scan_grown items (forwarded message w)).
  - rewrite turn_closed by done. apply grown_refl.
Qed.

Lemma send_grown env name w :
  grown (deathlink_stats w) (deathlink_stats (snd (send_deathlink env name w))).
Proof.
  destruct (send_world_cases env name w)
    as [[_ ->]|[(ws & _ & _ & _ & ->)|(ws & _ & _ & _ & ->)]].
  - apply grown_refl.
  - apply grown_incr.
  - apply grown_incr.
Qed.

Lemma send_keeps_player_stats env name w :
  player_death_stats (snd (send_deathlink env name w)) = player_death_stats w.
Proof.
  destruct (send_world_cases env name w)
    as [[_ ->]|[(ws & _ & _ & _ & ->)|(ws & _ & _ & _ & ->)]]; done.
Qed.

(** A turn of the dispatcher, seen from the accumulators: a dequeue, which
    leaves them alone, and perhaps one send. *)
Lemma dispatcher_turn_stats env w :
  (deathlink_stats (snd (dispatcher_turn env w)) = deathlink_stats w
   /\ player_death_stats (snd (dispatcher_turn env w)) = player_death_stats w)
  \/ exists name w1,
       deathlink_stats w1 = deathlink_stats w
       /\ player_death_stats w1 = player_death_stats w
       /\ snd (dispatcher_turn env w) = snd (send_deathlink env name w1).
Proof.
  destruct (read_queue w) as [|name q] eqn:Hq.
  - left. by rewrite dispatcher_turn_empty.
  - rewrite (dispatcher_turn_cons env w name q Hq).
    destruct (client_connected w); cbn [negb]; [|by left].
    right. exists name, (set_queue_file (Some (join nl q)) w).
    split; [done|]. split; [done|]. unfold bind.
    pose proof (send_returns_none env name (set_queue_file (Some (join nl q)) w)) as Hr.
    destruct (send_deathlink env name _) as [r w2]. cbn [fst snd] in *. subst r.
    by rewrite randint_clamped.
Qed.

Lemma step_grown a w :
  grown (deathlink_stats w) (deathlink_stats (step loads a w))
  /\ grown (player_death_stats w) (player_death_stats (step loads a w)).
Proof.
  destruct a; cbn [step].
  - split; apply grown_refl.
  - split; apply grown_refl.
  - split; [|apply turn_grown]. apply grown_eq.
    by destruct (turn_keeps_outbound_state loads message w) as (-> & _).
  - split; apply grown_eq; unfold client_to_server_turn, bind, get;
      (destruct (archipelago_ws w) as [ws|]; [|done]); by destruct (ws_open ws).
  - split; [apply send_grown|]. apply grown_eq, send_keeps_player_stats.
  - split; apply grown_refl.
  - destruct (dispatcher_turn_stats env w) as [[-> ->]|(name & w1 & H1 & H2 & ->)].
    + split; apply grown_refl.
    + rewrite <- H1, <- H2. split; [apply send_grown|].
      apply grown_eq, send_keeps_player_stats.
  - split; apply grown_refl.
Qed.

Lemma run_grown actions : forall w,
  grown (deathlink_stats w) (deathlink_stats (run loads actions w))
  /\ grown (player_death_stats w) (player_death_stats (run loads actions w)).
Proof.
  induction actions as [|a actions IH]; intros w; [split; apply grown_refl|].
  destruct (step_grown a w) as [Hd Hp].
  destruct (IH (step loads a w)) as [Hd' Hp'].
  split; eapply grown_trans; eauto.
Qed.

End StepFacts.

(** ** The accumulators over a run *)

(** X11.  No step of any task ever lowers a count or drops a name from
    either accumulator: over every run of the engine, from every state,
    each contributor's and each player's count is at least what it was. *)
Theorem counts_never_shrink
    (loads : string -> option json) (actions : list action) (w : world) :
  (forall name, default 0 (deathlink_stats w !! name)
                <= default 0 (deathlink_stats (run loads actions w) !! name))
  /\ (forall key, default 0 (player_death_stats w !! key)
                  <= default 0 (player_death_stats (run loads actions w) !! key)).
Proof.
  destruct (run_grown loads actions w) as [[Hd _] [Hp _]]. split; [apply Hd|apply Hp].
Qed.

(** X12.  From the start of the program on, every count either accumulator
    holds is at least 1: a name is stored only once something has been
    counted for it. *)
Theorem counts_stay_positive
    (loads : string -> option json) (actions : list action)
    (cfg : dispatch_config) (queue : option string) :
  let w := run loads actions (boot cfg queue) in
  (forall name count, deathlink_stats w !! name = Some count -> 1 <= count)
  /\ (forall key count, player_death_stats w !! key = Some count -> 1 <= count).
Proof.
  destruct (run_grown loads actions (boot cfg queue)) as [[_ Hd] [_ Hp]].
  split; [apply Hd|apply Hp]; intros k v Hk; cbn in Hk; by rewrite lookup_empty in Hk.
Qed.

Section TotalFacts.

Lemma total_insert_fresh (m : gmap string Z) name c :
  m !! name = None ->
  map_fold (fun _ count total => total + count) 0 (<[name := c]> m)
  = map_fold (fun _ count total => total + count) 0 m + c.
Proof.
  intros Hfresh. rewrite map_fold_insert_L; [done| |done].
  intros j1 j2 z1 z2 y _ _ _. lia.
Qed.

Lemma total_incr (m : gmap string Z) name :
  map_fold (fun _ count total => total + count) 0
           (<[name := default 0 (m !! name) + 1]> m)
  = map_fold (fun _ count total => total + count) 0 m + 1.
Proof.
  destruct (m !! name) as [c|] eqn:Hc; cbn [default].
  - rewrite <- insert_delete_eq.
    rewrite total_insert_fresh by apply lookup_delete_eq.
    rewrite (map_fold_delete_L _ _ name c m); [unfold id; lia| |done].
    intros j1 j2 z1 z2 y _ _ _. lia.
  - rewrite total_insert_fresh by done. lia.
Qed.

Lemma send_total env name w :
  deaths_this_run (snd (send_deathlink env name w))
  = deaths_this_run w + (if session_inactive w then 0 else 1).
Proof.
  unfold deaths_this_run.
  destruct (send_world_cases env name w)
    as [[Hact ->]|[(ws & Hact & _ & _ & ->)|(ws & Hact & _ & _ & ->)]];
    rewrite Hact; cbn [snd].
  - lia.
  - apply total_incr.
  - apply total_incr.
Qed.

End TotalFacts.

Section SessionFacts.

Variable loads : string -> option json.

Lemma relay_kept_refl w : relay_kept w w.
Proof. by repeat split. Qed.

Lemma relay_kept_trans w1 w2 w3 :
  relay_kept w1 w2 -> relay_kept w2 w3 -> relay_kept w1 w3.
Proof.
  unfold relay_kept. intros (?&?&?&?) (?&?&?&?). repeat split; congruence.
Qed.

Lemma pump_kept turn w : relay_kept w (snd (pump loads turn w)).
Proof.
  destruct turn as [[] message]; cbn [pump].
  - unfold client_to_server_turn, bind, get.
    destruct (archipelago_ws w) as [ws|]; [|apply relay_kept_refl].
    destruct (ws_open ws); [by repeat split|apply relay_kept_refl].
  - destruct (turn_keeps_outbound_state loads message w) as (?&?&?&?&?&?).
    by repeat split.
Qed.

Lemma traffic_kept traffic : forall w,
  relay_kept w (snd (for_each (pump loads) traffic w)).
Proof.
  induction traffic as [|turn traffic IH]; intros w; [apply relay_kept_refl|].
  cbn [for_each]. unfold bind. pose proof (pump_kept turn w) as Hturn.
  destruct (pump loads turn w) as [[[]|e] w1]; cbn [snd] in *; [|done].
  eapply relay_kept_trans; [exact Hturn|apply IH].
Qed.

(** The [try] block of [relay_messages]. *)
Lemma relay_messages_world client upstream traffic w :
  relay_messages loads client upstream traffic w
  = (Ok tt,
     set_archipelago_ws None
       (set_client_connected false
          (snd (match upstream with
                | Some server => relay_connect client server ;; for_each (pump loads) traffic
                | None => raise ConnectionClosed
                end w)))).
Proof.
  unfold relay_messages. unfold bind at 1.
  set (body := match upstream with
               | Some server => _
               | None => _
               end).
  pose proof (try_except_pass_ok body w) as Hok.
  pose proof (try_except_pass_world body w) as Hworld.
  destruct (try_except body (fun _ => ret tt) w) as [r w1].
  cbn [fst snd] in Hok, Hworld. by subst r w1.
Qed.

Lemma session_body_kept client upstream traffic w :
  relay_kept w
    (snd (match upstream with
          | Some server => relay_connect client server ;; for_each (pump loads) traffic
          | None => raise ConnectionClosed
          end w)).
Proof.
  destruct upstream as [server|]; [|apply relay_kept_refl].
  unfold bind at 1. cbn.
  eapply relay_kept_trans; [|apply traffic_kept]. by repeat split.
Qed.

End SessionFacts.

(** ** More on the send path *)

(** X13.  A send that goes through puts exactly one frame on the upstream
    connection, behind what was sent before: an envelope of one bounce
    tagged ["DeathLink"], with the name as source, ["Killed by <name>"] as
    cause, ["LOCAL_BOT"] as origin and the nonce that the newest registry
    record carries; when the call returns the trigger file is empty. *)
Theorem sent_frame_matches_registry
    (env : environment) (name : string) (w : world) (ws : websocket) :
  session_inactive w = false -> archipelago_ws w = Some ws -> ws_open ws = true ->
  let w' := snd (send_deathlink env name w) in
  exists payload,
    upstream_sent w' = ws_sent ws ++ [Dumps [payload]]
    /\ dl_cmd payload = "Bounce" /\ dl_tags payload = ["DeathLink"]
    /\ dl_source (dl_data payload) = name
    /\ dl_cause (dl_data payload) = "Killed by " +:+ name
    /\ dl_origin (dl_data payload) = "LOCAL_BOT"
    /\ (record_nonce <$> last (recent_outbound w')) = Some (dl_nonce (dl_data payload))
    /\ trigger_file w' = Some EmptyString.
Proof.
  intros Hact Hws Hopen w'. subst w'.
  rewrite (send_active_open env name w ws) by done. cbn [snd].
  exists (make_payload env name). repeat split.
  change (recent_outbound (set_trigger_file _ _))
    with (deque_append (env_uuid4 env, name, env_time env) (recent_outbound w)).
  by rewrite last_deque_append.
Qed.

Lemma sent_frame_matches_registry_witness :
  exists payload,
    upstream_sent (snd (send_deathlink sample_env "A" (in_session open_socket None)))
    = [Dumps [payload]]
    /\ dl_origin (dl_data payload) = "LOCAL_BOT".
Proof.
  destruct (sent_frame_matches_registry sample_env "A" (in_session open_socket None)
              open_socket eq_refl eq_refl eq_refl)
    as (payload & Hsent & _ & _ & _ & _ & Horigin & _).
  exists payload. split; [exact Hsent|exact Horigin].
Defined.

(** X14.  The total the stats page shows as deaths of this run, the sum of
    all contributor counts, goes up by exactly 1 with every call of
    [send_deathlink] made while a session is active, whether or not the
    transmission goes through, and stays as it is with every call made
    without one. *)
Theorem deaths_this_run_counts_sends (env : environment) (name : string) (w : world) :
  deaths_this_run (snd (send_deathlink env name w))
  = deaths_this_run w + (if session_inactive w then 0 else 1).
Proof. apply send_total. Qed.

(** ** A relay session from start to end *)

(** X15.  However a relay session goes, whether the upstream connection
    cannot be made, a message fails to go through on either side, or the
    traffic simply ends, [relay_messages] returns normally with the
    connected flag false and no upstream connection; the session has not
    touched the contributor counts, the registry or the queue file; and a
    send attempted after it does nothing. *)
Theorem relay_session_ends_torn_down
    (loads : string -> option json) (client : websocket)
    (upstream : option websocket) (traffic : list (direction * string)) (w : world) :
  let w' := snd (relay_messages loads client upstream traffic w) in
  fst (relay_messages loads client upstream traffic w) = Ok tt
  /\ client_connected w' = false /\ archipelago_ws w' = None
  /\ deathlink_stats w' = deathlink_stats w
  /\ recent_outbound w' = recent_outbound w
  /\ queue_file w' = queue_file w
  /\ forall env name, send_deathlink env name w' = (Ok PyNone, w').
Proof.
  intros w'. subst w'. rewrite relay_messages_world. cbn [fst snd].
  destruct (session_body_kept loads client upstream traffic w) as (Hd & Hr & Hq & _).
  split; [done|]. split; [done|]. split; [done|].
  split; [exact Hd|]. split; [exact Hr|]. split; [exact Hq|].
  intros env name. by apply send_inactive.
Qed.

(** Close a goal that asks for the response a handler gave. *)
Ltac answered := eexists; split; [|reflexivity]; reflexivity.

Lemma authorized_false (AUTH_KEY : string) (r : request) :
  authorized AUTH_KEY r = false <->
  AUTH_KEY <> "" /\ req_auth_header r <> Some AUTH_KEY
  /\ query_get "auth_key" (req_query r) <> Some AUTH_KEY.
Proof.
  unfold authorized. destruct AUTH_KEY as [|c key]; cbn [truthy negb].
  - split; [done|]. by intros [? _].
  - rewrite orb_false_iff, !bool_decide_eq_false. split; [|tauto].
    intros [? ?]. by repeat split.
Qed.

Section HandlerFacts.

Variable AUTH_KEY : string.
Variable int_of_str : string -> option Z.
Variable rates : trigger_rates.

Implicit Types (w : world) (env : environment) (r : request) (e : endpoint).

Lemma require_auth_pass r w :
  authorized AUTH_KEY r = true -> require_auth AUTH_KEY r w = (Done tt, w).
Proof. intros H. unfold require_auth. by rewrite H. Qed.

Lemma require_auth_fail r w :
  authorized AUTH_KEY r = false ->
  require_auth AUTH_KEY r w = (Failed HTTPUnauthorized, w).
Proof. intros H. unfold require_auth. by rewrite H. Qed.

Lemma query_int_spec r default_value w :
  query_int int_of_str "qty" default_value r w
  = match query_get "qty" (req_query r) with
    | Some s => match int_of_str s with
                | Some z => (Done z, w)
                | None => (Failed IntValueError, w)
                end
    | None => (Done default_value, w)
    end.
Proof.
  unfold query_int. destruct (query_get "qty" (req_query r)) as [s|]; [|done].
  by destruct (int_of_str s).
Qed.

Lemma trigger_and_queue_spec env user n w :
  trigger_and_queue env user n w = (Done tt, triggered env user n w).
Proof.
  unfold trigger_and_queue, triggered, hbind, call.
  pose proof (send_returns_none env user w) as Hr.
  destruct (send_deathlink env user w) as [r w1]. cbn [fst snd] in *. subst r.
  destruct (1 <? n); [|done]. by rewrite enqueue_spec.
Qed.

Lemma hbind_done {A B} (m : H A) (k : A -> H B) w a w' :
  m w = (Done a, w') -> hbind m k w = k a w'.
Proof. unfold hbind. by intros ->. Qed.

Lemma hbind_failed {A B} (m : H A) (k : A -> H B) w (err : handler_error) w' :
  m w = (Failed err, w') -> hbind m k w = (Failed err, w').
Proof. unfold hbind. by intros ->. Qed.

Lemma quantity_read e r w q :
  quantity int_of_str e r = Some q ->
  query_int int_of_str "qty" (match e with Cheer | Coins => 0 | _ => 1 end) r w
  = (Done q, w).
Proof.
  unfold quantity. rewrite query_int_spec.
  destruct (query_get "qty" (req_query r)) as [s|]; [by intros ->|by intros [= ->]].
Qed.

Lemma quantity_unread e r w default_value :
  quantity int_of_str e r = None ->
  query_int int_of_str "qty" default_value r w = (Failed IntValueError, w).
Proof.
  unfold quantity. rewrite query_int_spec.
  destruct (query_get "qty" (req_query r)) as [s|]; [by intros ->|done].
Qed.

(** What a handler does with a request that passes the check and whose
    numbers can be read: the response is the same in every world. *)
Lemma handle_spec e env r q n :
  authorized AUTH_KEY r = true ->
  quantity int_of_str e r = Some q -> owed rates e q = Some n ->
  exists resp,
    resp_status resp = 200
    /\ forall w, handle AUTH_KEY int_of_str rates e env r w
                 = (Done resp, if 0 <? n then triggered env (user_of e r) n w else w).
Proof.
  intros Hauth Hq Hn.
  destruct e; cbn [handle owed rate] in *.
  - injection Hn as <-.
    destruct (q * default 3 (deaths_per_twitch_sub rates) <=? 0) eqn:Eleb;
      destruct (Z.ltb_spec 0 (q * default 3 (deaths_per_twitch_sub rates)));
      try (apply Z.leb_le in Eleb; lia); try (apply Z.leb_gt in Eleb; lia).
    all: eexists; split; [|intros w; unfold handle_twitch_sub;
      rewrite (hbind_done _ _ _ _ _ (require_auth_pass r w Hauth));
      rewrite (hbind_done _ _ _ _ _ (quantity_read Twitch r w q Hq)); cbv zeta;
      rewrite Eleb;
      rewrite ?(hbind_done _ _ _ _ _ (trigger_and_queue_spec env _ _ w));
      reflexivity]; reflexivity.
  - injection Hn as <-.
    destruct (q * default 2 (deaths_per_tiktok_sub rates) <=? 0) eqn:Eleb;
      destruct (Z.ltb_spec 0 (q * default 2 (deaths_per_tiktok_sub rates)));
      try (apply Z.leb_le in Eleb; lia); try (apply Z.leb_gt in Eleb; lia).
    all: eexists; split; [|intros w; unfold handle_tiktok_sub;
      rewrite (hbind_done _ _ _ _ _ (require_auth_pass r w Hauth));
      rewrite (hbind_done _ _ _ _ _ (quantity_read TikTok r w q Hq)); cbv zeta;
      rewrite Eleb;
      rewrite ?(hbind_done _ _ _ _ _ (trigger_and_queue_spec env _ _ w));
      reflexivity]; reflexivity.
  - injection Hn as <-.
    destruct (q <=? 0) eqn:Eleb; destruct (Z.ltb_spec 0 q);
      try (apply Z.leb_le in Eleb; lia); try (apply Z.leb_gt in Eleb; lia).
    all: eexists; split; [|intros w; unfold handle_custom;
      rewrite (hbind_done _ _ _ _ _ (require_auth_pass r w Hauth));
      rewrite (hbind_done _ _ _ _ _ (quantity_read Custom r w q Hq)); cbv zeta;
      rewrite Eleb;
      rewrite ?(hbind_done _ _ _ _ _ (trigger_and_queue_spec env _ _ w));
      reflexivity]; reflexivity.
  - destruct (default 100 (bits_per_death rates) =? 0) eqn:Ezero; [discriminate|].
    injection Hn as <-.
    destruct (0 <? q / default 100 (bits_per_death rates)) eqn:Epos.
    all: eexists; split; [|intros w; unfold handle_cheer;
      rewrite (hbind_done _ _ _ _ _ (require_auth_pass r w Hauth));
      rewrite (hbind_done _ _ _ _ _ (quantity_read Cheer r w q Hq)); cbv zeta;
      unfold floordiv; rewrite Ezero; unfold hbind at 1, hret at 1; rewrite Epos;
      rewrite ?(hbind_done _ _ _ _ _ (trigger_and_queue_spec env _ _ w));
      reflexivity]; reflexivity.
  - destruct (default 100 (coins_per_death rates) =? 0) eqn:Ezero; [discriminate|].
    injection Hn as <-.
    destruct (0 <? q / default 100 (coins_per_death rates)) eqn:Epos.
    all: eexists; split; [|intros w; unfold handle_coins;
      rewrite (hbind_done _ _ _ _ _ (require_auth_pass r w Hauth));
      rewrite (hbind_done _ _ _ _ _ (quantity_read Coins r w q Hq)); cbv zeta;
      unfold floordiv; rewrite Ezero; unfold hbind at 1, hret at 1; rewrite Epos;
      rewrite ?(hbind_done _ _ _ _ _ (trigger_and_queue_spec env _ _ w));
      reflexivity]; reflexivity.
Qed.

Lemma handle_unauthorized e env r w :
  authorized AUTH_KEY r = false ->
  handle AUTH_KEY int_of_str rates e env r w = (Failed HTTPUnauthorized, w).
Proof.
  intros Hauth. destruct e; cbn [handle];
    unfold handle_twitch_sub, handle_tiktok_sub, handle_custom, handle_cheer, handle_coins;
    by rewrite (hbind_failed _ _ _ _ _ (require_auth_fail r w Hauth)).
Qed.

Lemma handle_unread e env r w :
  authorized AUTH_KEY r = true -> quantity int_of_str e r = None ->
  handle AUTH_KEY int_of_str rates e env r w = (Failed IntValueError, w).
Proof.
  intros Hauth Hq. destruct e; cbn [handle];
    unfold handle_twitch_sub, handle_tiktok_sub, handle_custom, handle_cheer, handle_coins;
    rewrite (hbind_done _ _ _ _ _ (require_auth_pass r w Hauth));
    by rewrite (hbind_failed _ _ _ _ _ (quantity_unread _ r w _ Hq)).
Qed.

Lemma handle_zero_rate e env r w q :
  authorized AUTH_KEY r = true -> quantity int_of_str e r = Some q ->
  owed rates e q = None ->
  handle AUTH_KEY int_of_str rates e env r w = (Failed ZeroDivisionError, w).
Proof.
  intros Hauth Hq Hn. destruct e; cbn [handle owed rate] in *; try discriminate.
  - unfold handle_cheer.
    rewrite (hbind_done _ _ _ _ _ (require_auth_pass r w Hauth)).
    rewrite (hbind_done _ _ _ _ _ (quantity_read Cheer r w q Hq)). cbv zeta.
    unfold floordiv.
    destruct (default 100 (bits_per_death rates) =? 0); [done|discriminate].
  - unfold handle_coins.
    rewrite (hbind_done _ _ _ _ _ (require_auth_pass r w Hauth)).
    rewrite (hbind_done _ _ _ _ _ (quantity_read Coins r w q Hq)). cbv zeta.
    unfold floordiv.
    destruct (default 100 (coins_per_death rates) =? 0); [done|discriminate].
Qed.

End HandlerFacts.

(** ** The control surface *)

(** X16.  With an auth key configured, a request to any of the five trigger
    endpoints that gives the key neither in the [X-Auth-Key] header nor as
    [auth_key] in the query is refused before anything else happens: the
    handler raises [HTTPUnauthorized] and the state is as it was.  With the
    key given in either place, or with no key configured, no endpoint ever
    answers that way. *)
Theorem unauthorized_iff_key_missing
    (AUTH_KEY : string) (int_of_str : string -> option Z) (rates : trigger_rates)
    (e : endpoint) (env : environment) (r : request) (w : world) :
  (fst (handle AUTH_KEY int_of_str rates e env r w) = Failed HTTPUnauthorized
   <-> AUTH_KEY <> "" /\ req_auth_header r <> Some AUTH_KEY
       /\ query_get "auth_key" (req_query r) <> Some AUTH_KEY)
  /\ (fst (handle AUTH_KEY int_of_str rates e env r w) = Failed HTTPUnauthorized ->
      snd (handle AUTH_KEY int_of_str rates e env r w) = w).
Proof.
  rewrite <- authorized_false.
  destruct (authorized AUTH_KEY r) eqn:Hauth.
  - assert (Hother : fst (handle AUTH_KEY int_of_str rates e env r w)
                     <> Failed HTTPUnauthorized).
    { destruct (quantity int_of_str e r) as [q|] eqn:Hq.
      - destruct (owed rates e q) as [n|] eqn:Hn.
        + destruct (handle_spec AUTH_KEY int_of_str rates e env r q n Hauth Hq Hn)
            as (resp & _ & ->). done.
        + by rewrite (handle_zero_rate AUTH_KEY int_of_str rates e env r w q).
      - by rewrite handle_unread. }
    split.
    + split; [intros Hf; by destruct Hother|discriminate].
    + intros Hf. by destruct Hother.
  - rewrite handle_unauthorized by done. cbn [fst snd]. split; [split|]; done.
Qed.

(** X17.  The response of a trigger endpoint, or the error it raises,
    depends on the request and the configuration only, not on the state:
    a request answered with "Triggered 1" gets that answer with a session
    and without one. *)
Theorem reply_ignores_state
    (AUTH_KEY : string) (int_of_str : string -> option Z) (rates : trigger_rates)
    (e : endpoint) (env : environment) (r : request) (w1 w2 : world) :
  fst (handle AUTH_KEY int_of_str rates e env r w1)
  = fst (handle AUTH_KEY int_of_str rates e env r w2).
Proof.
  destruct (authorized AUTH_KEY r) eqn:Hauth.
  - destruct (quantity int_of_str e r) as [q|] eqn:Hq.
    + destruct (owed rates e q) as [n|] eqn:Hn.
      * destruct (handle_spec AUTH_KEY int_of_str rates e env r q n Hauth Hq Hn)
          as (resp & _ & Hall). by rewrite !Hall.
      * by rewrite !(handle_zero_rate AUTH_KEY int_of_str rates e env r _ q).
    + by rewrite !handle_unread.
  - by rewrite !handle_unauthorized.
Qed.

(** X18.  A request that passes the check and asks for nothing, a quantity
    or a product of zero or less, or fewer bits or coins than one death
    costs, is answered with status 200 and changes nothing. *)
Theorem nothing_owed_nothing_done
    (AUTH_KEY : string) (int_of_str : string -> option Z) (rates : trigger_rates)
    (e : endpoint) (env : environment) (r : request) (w : world) (q n : Z) :
  authorized AUTH_KEY r = true ->
  quantity int_of_str e r = Some q -> owed rates e q = Some n -> n <= 0 ->
  exists resp,
    handle AUTH_KEY int_of_str rates e env r w = (Done resp, w)
    /\ resp_status resp = 200.
Proof.
  intros Hauth Hq Hn Hle.
  destruct (handle_spec AUTH_KEY int_of_str rates e env r q n Hauth Hq Hn)
    as (resp & Hstatus & Hall).
  exists resp. rewrite Hall. split; [|done].
  by destruct (Z.ltb_spec 0 n); [lia|].
Qed.

Lemma nothing_owed_nothing_done_witness :
  exists resp,
    handle "" sample_int no_rates Cheer sample_env
      (sample_request [("user", "Bob"); ("qty", "0")]) (in_session open_socket None)
    = (Done resp, in_session open_socket None)
    /\ resp_status resp = 200.
Proof.
  apply (nothing_owed_nothing_done "" sample_int no_rates Cheer sample_env _ _ 0 0);
    [reflexivity|reflexivity|reflexivity|lia].
Defined.

(** X19.  A request that passes the check and owes [n >= 1] deaths, for a
    user name the queue file gives back as written: one death is sent for
    at once and [n - 1] copies of the name join the queue behind the old
    entries; the answer has status 200.  Counting the deaths of this run and
    the deaths in the queue together, all [n] are accounted for when a
    session is active, and [n - 1] when none is: the one sent for at once
    is then lost. *)
Theorem one_now_rest_queued
    (AUTH_KEY : string) (int_of_str : string -> option Z) (rates : trigger_rates)
    (e : endpoint) (env : environment) (r : request) (w : world) (q n : Z) :
  authorized AUTH_KEY r = true ->
  quantity int_of_str e r = Some q -> owed rates e q = Some n -> 1 <= n ->
  queue_safe (user_of e r) = true ->
  let user := user_of e r in
  let w' := snd (handle AUTH_KEY int_of_str rates e env r w) in
  (exists resp, fst (handle AUTH_KEY int_of_str rates e env r w) = Done resp
                /\ resp_status resp = 200)
  /\ read_queue w' = read_queue w ++ replicate (Z.to_nat (n - 1)) user
  /\ deathlink_stats w' = deathlink_stats (snd (send_deathlink env user w))
  /\ upstream_sent w' = upstream_sent (snd (send_deathlink env user w))
  /\ deaths_this_run w' + deaths_in_queue w'
     = deaths_this_run w + deaths_in_queue w
       + (if session_inactive w then n - 1 else n).
Proof.
  intros Hauth Hq Hn Hpos Hsafe user w'. subst w'.
  destruct (handle_spec AUTH_KEY int_of_str rates e env r q n Hauth Hq Hn)
    as (resp & Hstatus & Hall).
  rewrite Hall. cbn [fst snd].
  destruct (Z.ltb_spec 0 n); [|lia]. fold user.
  set (sent := snd (send_deathlink env user w)).
  assert (Hsentq : read_queue sent = read_queue w).
  { unfold read_queue, sent. by rewrite send_keeps_queue. }
  assert (Hread : read_queue (triggered env user n w)
                  = read_queue w ++ replicate (Z.to_nat (n - 1)) user).
  { unfold triggered. fold sent. destruct (Z.ltb_spec 1 n).
    - rewrite enqueue_spec. cbn [snd].
      replace (Z.to_nat (Z.max 0 (n - 1))) with (Z.to_nat (n - 1)) by lia.
      rewrite Hsentq. apply read_queue_rewritten, Forall_app.
      split; [apply read_queue_safe|by apply replicate_safe].
    - replace (n - 1) with 0 by lia. cbn [Z.to_nat replicate].
      by rewrite app_nil_r. }
  assert (Hstats : deathlink_stats (triggered env user n w) = deathlink_stats sent).
  { unfold triggered. fold sent. destruct (1 <? n); [|done]. by rewrite enqueue_spec. }
  assert (Hup : upstream_sent (triggered env user n w) = upstream_sent sent).
  { unfold triggered. fold sent. destruct (1 <? n); [|done]. by rewrite enqueue_spec. }
  split; [by exists resp|]. split; [exact Hread|]. split; [exact Hstats|].
  split; [exact Hup|].
  unfold deaths_in_queue. rewrite Hread, length_app, length_replicate.
  unfold deaths_this_run at 1. rewrite Hstats.
  change (map_fold _ 0 (deathlink_stats sent)) with (deaths_this_run sent).
  unfold sent. rewrite send_total. destruct (session_inactive w); lia.
Qed.

Lemma one_now_rest_queued_witness :
  read_queue (snd (handle "" sample_int no_rates Twitch sample_env
                     (sample_request [("user", "Bob"); ("qty", "2")])
                     (in_session open_socket None)))
  = replicate 5 "Bob".
Proof.
  apply (one_now_rest_queued "" sample_int no_rates Twitch sample_env
           (sample_request [("user", "Bob"); ("qty", "2")])
           (in_session open_socket None) 2 6);
    [reflexivity|reflexivity|reflexivity|lia|reflexivity].
Defined.

(** X20.  A request that passes the check but whose quantity [int] rejects,
    or a cheer or coins request while the configured rate is zero, makes
    the handler raise ([ValueError], [ZeroDivisionError]) before anything
    has been sent or queued: the state is as it was. *)
Theorem unreadable_numbers_change_nothing
    (AUTH_KEY : string) (int_of_str : string -> option Z) (rates : trigger_rates)
    (e : endpoint) (env : environment) (r : request) (w : world) :
  authorized AUTH_KEY r = true ->
  (forall s, query_get "qty" (req_query r) = Some s -> int_of_str s = None ->
     handle AUTH_KEY int_of_str rates e env r w = (Failed IntValueError, w))
  /\ (forall q, quantity int_of_str e r = Some q ->
        (e = Cheer \/ e = Coins) -> rate rates e = 0 ->
        handle AUTH_KEY int_of_str rates e env r w = (Failed ZeroDivisionError, w)).
Proof.
  intros Hauth. split.
  - intros s Hs Hbad. apply handle_unread; [done|].
    unfold quantity. by rewrite Hs.
  - intros q Hq He Hzero. apply (handle_zero_rate AUTH_KEY int_of_str rates e env r w q);
      [done|done|].
    destruct He as [-> | ->]; cbn [owed]; by rewrite Hzero.
Qed.

Lemma unreadable_numbers_change_nothing_witness :
  handle "" sample_int no_rates Custom sample_env
    (sample_request [("qty", "many")]) (in_session open_socket None)
  = (Failed IntValueError, in_session open_socket None).
Proof.
  apply (proj1 (unreadable_numbers_change_nothing "" sample_int no_rates Custom
                  sample_env (sample_request [("qty", "many")])
                  (in_session open_socket None) eq_refl) "many");
    reflexivity.
Defined.
